(** * Plex IMDb Enhancer: the metadata resolution core

    A shallow embedding of the resolution pipeline of the extension:
    the TTL + LRU cache ([cache.js]), the sliding-window rate limiter and
    the retrying fetch ([rate-limiter.js]), the OMDb client
    ([api-client.js]), the IMDb-id extraction of the Plex client
    ([plex-api-client.js]) and the metadata resolver
    ([metadata-resolver.js]).

    Conventions of the embedding.
    - JavaScript numbers that hold timestamps, sizes and counters are
      integers ([Z] or [nat]), which a double holds exactly below 2^53.
      The two places where the source divides ([getStats],
      [getSizeBytes]) are computed as the engine computes them, in
      binary64 arithmetic: a double is the rational [Q] it stands for,
      and every operation rounds its exact result to the nearest double,
      ties to even ([Js.round64]).
    - A JavaScript string is a [string]; one character stands for one
      UTF-16 code unit (strings with a code unit above 255 have no
      counterpart here).
    - [Date.now()] is never called by a definition: every reading of the
      clock is an explicit input (an argument, or the clock of the
      [World] below).
    - A function that can throw returns a [Js.result]. *)

From Stdlib Require Import ZArith List String Ascii Bool Lia QArith Qround.
From Stdlib Require Import Qpower Lqa.
From Stdlib Require Import DecimalString.
Import ListNotations.

Close Scope Q_scope.
Open Scope string_scope.
Open Scope Z_scope.

(* ================================================================== *)
(** * JavaScript preliminaries *)
(* ================================================================== *)

Module Js.

(** An [Error] object, as far as the code looks at it: its [name] and
    its [message]. *)
Record error := mkError { name : string; message : string }.

Definition Error (msg : string) : error := mkError "Error" msg.
Definition TypeError (msg : string) : error := mkError "TypeError" msg.

(** Completion of an expression or of a function body. *)
Inductive result (A : Type) : Type :=
| Ok (a : A)
| Throw (e : error).
Arguments Ok {A} a.
Arguments Throw {A} e.

Definition bind {A B} (r : result A) (k : A -> result B) : result B :=
  match r with
  | Ok a => k a
  | Throw e => Throw e
  end.

(** [try { body } catch (e) { handler }] *)
Definition try_catch {A} (body : result A) (handler : error -> result A)
  : result A :=
  match body with
  | Ok a => Ok a
  | Throw e => handler e
  end.

Definition returns {A} (r : result A) : bool :=
  match r with Ok _ => true | Throw _ => false end.

(** Decimal rendering of a non-negative integer ([String(n)]). *)
Definition string_of_nat (n : nat) : string :=
  NilZero.string_of_uint (Nat.to_uint n).

Definition string_of_Z (z : Z) : string :=
  if z <? 0 then "-" ++ string_of_nat (Z.to_nat (- z))
  else string_of_nat (Z.to_nat z).

Fixpoint repeat_string (s : string) (n : nat) : string :=
  match n with
  | O => ""
  | S n' => s ++ repeat_string s n'
  end.

(** ** Numbers

    A finite double is a rational [m * 2^e] with integers [|m| < 2^53]
    and [e >= -1074].  [round64 x] is the double that an arithmetic
    operation returns when its exact result is [x] (IEEE 754, binary64,
    round to nearest, ties to even): with [2^e] the spacing of the
    doubles around [x], the multiple [m * 2^e] nearest to [x], the one
    with the even [m] when two are as near.  Results beyond the largest
    double, which would be [Infinity], are not represented; none occurs
    in the computations below. *)
Definition pow2 (e : Z) : Q := Qpower 2 e.

(** The integer nearest to [x], the even one on a tie. *)
Definition round_half_even (x : Q) : Z :=
  let f := Qfloor x in
  match Qcompare (x - inject_Z f) (1 # 2) with
  | Lt => f
  | Gt => f + 1
  | Eq => if Z.even f then f else f + 1
  end.

(** For [x > 0], the exponent [e] with [2^52 <= x / 2^e < 2^53], and
    [-1074] where that would be smaller (the subnormal doubles).
    [e0] is [e] or [e + 1]: [x = p / q] with [2^a <= p < 2^(a+1)] and
    [2^b <= q < 2^(b+1)] lies between [2^(a-b-1)] and [2^(a-b+1)]. *)
Definition exponent64 (x : Q) : Z :=
  let e0 := Z.log2 (Qnum x) - Z.log2 (Z.pos (Qden x)) - 52 in
  let e := if Qle_bool (pow2 52) (x / pow2 e0) then e0 else e0 - 1 in
  Z.max e (-1074).

Definition round64_pos (x : Q) : Q :=
  let e := exponent64 x in
  (inject_Z (round_half_even (x / pow2 e)) * pow2 e)%Q.

Definition round64 (x : Q) : Q :=
  match Qcompare x 0 with
  | Eq => 0%Q
  | Gt => round64_pos x
  | Lt => (- round64_pos (- x))%Q
  end.

(** [x / y], [x * y] and [x + y] on doubles. *)
Definition fdiv (x y : Q) : Q := round64 (x / y).
Definition fmul (x y : Q) : Q := round64 (x * y).
Definition fadd (x y : Q) : Q := round64 (x + y).

(** [Math.round]: the nearest integer, ties towards +infinity. *)
Definition Math_round (x : Q) : Z := Qfloor (x + (1 # 2))%Q.

(** [Number.prototype.toFixed(f)], on the value [x] of the double it is
    called on: with [n] the integer for which [n / 10^f - x] is closest
    to zero (the larger one on a tie), the decimal digits of [n], padded
    with zeros on the left to [f + 1] digits, with a point before the
    last [f].  The standard defines [n] on the exact value of the
    double, so nothing is rounded twice here. *)
Definition toFixed_digits (f : nat) (x : Q) : Z :=
  Math_round (x * inject_Z (10 ^ Z.of_nat f))%Q.

Definition insert_point (f : nat) (digits : string) : string :=
  let padded :=
    repeat_string "0" (S f - String.length digits) ++ digits in
  let k := (String.length padded - f)%nat in
  if (f =? 0)%nat then padded
  else substring 0 k padded ++ "." ++ substring k f padded.

Definition toFixed (f : nat) (x : Q) : string :=
  if Qle_bool 0 x
  then insert_point f (string_of_Z (toFixed_digits f x))
  else "-" ++ insert_point f (string_of_Z (toFixed_digits f (- x)%Q)).

End Js.

Import Js.

(* ================================================================== *)
(** * [cache.js]: LRU cache with TTL *)
(* ================================================================== *)

Module LRUCache.

(** What [JSON.stringify(v)] does on a cached value: it produces a text,
    it produces [undefined] (for [undefined], functions, symbols), or it
    throws (circular structure, BigInt). *)
Inductive stringified : Type :=
| JsonText (s : string)
| JsonUndefined
| JsonThrows (e : Js.error).

Section Cache.

(** The cached payloads, and the behaviour of the built-in
    [JSON.stringify] on them. *)
Variable V : Type.
Variable JSON_stringify : V -> stringified.

Record CacheItem : Type :=
  mkItem { value : V; expiry : Z; timestamp : Z }.

(** A JavaScript [Map] with string keys: the entries in insertion
    order, every key at most once. *)
Definition JsMap : Type := list (string * CacheItem).

Fixpoint Map_get (key : string) (m : JsMap) : option CacheItem :=
  match m with
  | [] => None
  | (k, item) :: m' =>
      if String.eqb key k then Some item else Map_get key m'
  end.

Fixpoint Map_delete (key : string) (m : JsMap) : JsMap :=
  match m with
  | [] => []
  | (k, item) :: m' =>
      if String.eqb key k then m' else (k, item) :: Map_delete key m'
  end.

(** [Map.prototype.set]: a present key keeps its position, a new key
    goes to the end. *)
Fixpoint Map_set (key : string) (item : CacheItem) (m : JsMap) : JsMap :=
  match m with
  | [] => [(key, item)]
  | (k, old) :: m' =>
      if String.eqb key k then (k, item) :: m'
      else (k, old) :: Map_set key item m'
  end.

(** [m.keys().next().value] *)
Definition Map_first_key (m : JsMap) : option string :=
  match m with
  | [] => None
  | (k, _) :: _ => Some k
  end.

Definition Map_size (m : JsMap) : nat := List.length m.

Record t : Type := mkCache {
  cache : JsMap;
  maxSize : nat;
  ttl : Z;
  hits : nat;
  misses : nat;
  _cachedSize : option Z;
  _cacheSizeTimestamp : option Z
}.

Definition with_cache (c : t) (m : JsMap) : t :=
  mkCache m (maxSize c) (ttl c) (hits c) (misses c)
          (_cachedSize c) (_cacheSizeTimestamp c).

Definition with_counters (c : t) (h m : nat) : t :=
  mkCache (cache c) (maxSize c) (ttl c) h m
          (_cachedSize c) (_cacheSizeTimestamp c).

(** [constructor(maxSize, ttlMinutes)] *)
Definition new (maxSize : nat) (ttlMinutes : Z) : t :=
  mkCache [] maxSize (ttlMinutes * 60 * 1000) 0 0 None None.

(** [get(key)], with [now] the value of [Date.now()].  [None] is the
    [null] of the source. *)
Definition get (c : t) (now : Z) (key : string) : option V * t :=
  match Map_get key (cache c) with
  | None => (None, with_counters c (hits c) (S (misses c)))
  | Some item =>
      if expiry item <? now then
        (None,
         with_counters (with_cache c (Map_delete key (cache c)))
                       (hits c) (S (misses c)))
      else
        (Some (value item),
         with_counters
           (with_cache c (Map_set key item (Map_delete key (cache c))))
           (S (hits c)) (misses c))
  end.

(** [set(key, value)]; [now] and [now'] are the two readings of
    [Date.now()], for [expiry] and for [timestamp]. *)
Definition set (c : t) (now now' : Z) (key : string) (v : V) : t :=
  let m :=
    if (maxSize c <=? Map_size (cache c))%nat then
      match Map_first_key (cache c) with
      | Some firstKey => Map_delete firstKey (cache c)
      | None => cache c
      end
    else cache c in
  with_cache c (Map_set key (mkItem v (now + ttl c) now') m).

(** [has(key)]: [this.get(key) !== null] (cached values are objects,
    never [null]). *)
Definition has (c : t) (now : Z) (key : string) : bool * t :=
  let (r, c') := get c now key in
  (match r with Some _ => true | None => false end, c').

Definition delete (c : t) (key : string) : t :=
  with_cache c (Map_delete key (cache c)).

Definition clear (c : t) : t :=
  with_counters (with_cache c []) 0 0.

Definition keys (c : t) : list string := map fst (cache c).

Record Stats : Type := mkStats {
  stat_size : nat;
  stat_maxSize : nat;
  stat_hits : nat;
  stat_misses : nat;
  stat_hitRate : string
}.

Definition Q_of_nat (n : nat) : Q := inject_Z (Z.of_nat n).

(** [getStats()]; [(this.hits / total) * 100] is a division and a
    multiplication of doubles. *)
Definition getStats (c : t) : Stats :=
  let total := (hits c + misses c)%nat in
  let hitRate :=
    if (0 <? total)%nat
    then toFixed 2 (fmul (fdiv (Q_of_nat (hits c)) (Q_of_nat total)) 100)
    else "0.00" in
  mkStats (Map_size (cache c)) (maxSize c) (hits c) (misses c)
          (hitRate ++ "%").

(** ** [getSizeBytes()] *)

Definition Q_of_len (s : string) : Q := Q_of_nat (String.length s).

(** [JSON.stringify(v).length]: reading [length] of [undefined] is a
    [TypeError]. *)
Definition stringify_length (v : V) : Js.result Q :=
  match JSON_stringify v with
  | JsonText s => Ok (Q_of_len s)
  | JsonUndefined =>
      Throw (TypeError "Cannot read properties of undefined")
  | JsonThrows e => Throw e
  end.

Definition maxSampleSize : nat := 10.

(** The [for ... of this.cache.entries()] loop of the sampling
    version, on the entries still to visit.  The sizes added for the
    sampled entries are whole numbers, and their sums are exact; the
    average and the estimate made from it are rounded as doubles. *)
Fixpoint sample_loop (entries : JsMap) (total : nat)
         (size : Q) (count : nat) : Js.result Q :=
  match entries with
  | [] => Ok size
  | (key, item) :: rest =>
      if (count <? maxSampleSize)%nat then
        let size := (size + Q_of_len key * 2)%Q in
        Js.bind
          (try_catch
             (Js.bind (stringify_length (value item))
                      (fun n => Ok (size + n * 2)%Q))
             (fun _ => Ok (size + 1000)%Q))
          (fun size => sample_loop rest total size (S count))
      else
        let avgSize := fdiv size (Q_of_nat count) in
        Ok (fadd size (fmul avgSize (Q_of_nat total - Q_of_nat count)%Q))
  end.

Definition truthy_number (n : option Z) : bool :=
  match n with
  | Some z => negb (z =? 0)
  | None => false
  end.

(** [getSizeBytes()] of the sampling version; [now] is read by the
    freshness test and [now'] when the result is stored. *)
Definition getSizeBytes (c : t) (now now' : Z) : Js.result Z * t :=
  let fresh :=
    truthy_number (_cachedSize c) &&
    match _cacheSizeTimestamp c with
    | Some ts => now - 60000 <? ts
    | None => false
    end in
  match fresh, _cachedSize c with
  | true, Some cached => (Ok cached, c)
  | _, _ =>
      match sample_loop (cache c) (List.length (cache c)) 0%Q 0 with
      | Ok size =>
          let rounded := Math_round size in
          (Ok rounded,
           mkCache (cache c) (maxSize c) (ttl c) (hits c) (misses c)
                   (Some rounded) (Some now'))
      | Throw e => (Throw e, c)
      end
  end.

(** [getSizeBytes()] of the earlier copy of the file, with neither
    sampling nor a [try]. *)
Fixpoint plain_loop (entries : JsMap) (size : Q) : Js.result Q :=
  match entries with
  | [] => Ok size
  | (key, item) :: rest =>
      let size := (size + Q_of_len key * 2)%Q in
      Js.bind (stringify_length (value item))
              (fun n => plain_loop rest (size + n * 2)%Q)
  end.

Definition getSizeBytes_unguarded (c : t) : Js.result Q :=
  plain_loop (cache c) 0%Q.

(** ** Sequences of operations *)

Inductive op : Type :=
| OpGet (now : Z) (key : string)
| OpSet (now now' : Z) (key : string) (v : V)
| OpHas (now : Z) (key : string)
| OpDelete (key : string)
| OpClear.

Definition step (c : t) (o : op) : t :=
  match o with
  | OpGet now key => snd (get c now key)
  | OpSet now now' key v => set c now now' key v
  | OpHas now key => snd (has c now key)
  | OpDelete key => delete c key
  | OpClear => clear c
  end.

Definition run (ops : list op) (c : t) : t := fold_left step ops c.

(** The number of [get] and [has] calls made since the last [clear],
    counted on the sequence of calls; [n] is the count so far. *)
Definition count_lookup (n : nat) (o : op) : nat :=
  match o with
  | OpGet _ _ | OpHas _ _ => S n
  | OpClear => 0%nat
  | _ => n
  end.

Definition lookups_since_clear (ops : list op) : nat :=
  fold_left count_lookup ops 0%nat.

(** Every key occurs once. *)
Definition wf (c : t) : Prop := NoDup (keys c).

End Cache.

Arguments value {V} _.
Arguments expiry {V} _.
Arguments timestamp {V} _.
Arguments mkItem {V} _ _ _.
Arguments cache {V} _.
Arguments maxSize {V} _.
Arguments ttl {V} _.
Arguments hits {V} _.
Arguments misses {V} _.
Arguments _cachedSize {V} _.
Arguments _cacheSizeTimestamp {V} _.
Arguments Map_get {V} _ _.
Arguments Map_delete {V} _ _.
Arguments Map_set {V} _ _ _.
Arguments Map_first_key {V} _.
Arguments Map_size {V} _.
Arguments get {V} _ _ _.
Arguments set {V} _ _ _ _ _.
Arguments has {V} _ _ _.
Arguments delete {V} _ _.
Arguments clear {V} _.
Arguments keys {V} _.
Arguments getStats {V} _.
Arguments getSizeBytes {V} _ _ _ _.
Arguments getSizeBytes_unguarded {V} _ _.
Arguments OpGet {V} _ _.
Arguments OpSet {V} _ _ _ _.
Arguments OpHas {V} _ _.
Arguments OpDelete {V} _.
Arguments OpClear {V}.
Arguments step {V} _ _.
Arguments run {V} _ _.
Arguments lookups_since_clear {V} _.
Arguments wf {V} _.

End LRUCache.

(* ================================================================== *)
(** * [config.js] *)
(* ================================================================== *)

Module CONFIG.

Definition CACHE_MAX_SIZE : nat := 100.
Definition CACHE_TTL_MINUTES : Z := 60.
Definition MAX_REQUESTS_PER_HOUR : nat := 100.
Definition RATE_LIMIT_WINDOW_MS : Z := 60 * 60 * 1000.
Definition MAX_RETRY_ATTEMPTS : nat := 3.
Definition INITIAL_RETRY_DELAY_MS : Z := 1000.
Definition MAX_RETRY_DELAY_MS : Z := 10000.
Definition FETCH_TIMEOUT_MS : Z := 10000.
Definition OMDB_BASE_URL : string := "https://www.omdbapi.com/".

Module FEATURES.
Definition ENABLE_CACHE : bool := true.
Definition ENABLE_RATE_LIMITING : bool := true.
End FEATURES.

End CONFIG.

(* ================================================================== *)
(** * The page's environment: clock, timers, network *)
(* ================================================================== *)

Module Env.

(** The fields of an OMDb reply the code reads. *)
Record OmdbData : Type := mkOmdbData {
  Response : string;
  Error : option string;
  imdbID : option string
}.

(** [parseInt] of a header: the integer it starts with, or [NaN]. *)
Inductive parsedInt : Type :=
| Int (n : Z)
| NaN.

(** A [Response] of [fetch].  [retryAfter] is the [Retry-After] header
    as [parseInt] reads it, [None] when the header is missing or empty;
    [json] is what [response.json()] resolves to. *)
Record HttpResponse : Type := mkResponse {
  status : Z;
  statusText : string;
  retryAfter : option parsedInt;
  json : Js.result OmdbData
}.

(** [response.ok] *)
Definition ok (r : HttpResponse) : bool :=
  (200 <=? status r) && (status r <=? 299).

(** What one call of [fetch] meets: a response, or a rejection
    (network failure, abort). *)
Inductive FetchOutcome : Type :=
| Responds (r : HttpResponse)
| Rejects (e : Js.error).

(** What the code does to the outside, in order. *)
Inductive Event : Type :=
| EvFetch (url : string)
| EvTimeout (ms : parsedInt)
| EvWarnCapped
| EvWarnRateLimitReached (count : nat) (waitTime : parsedInt)
| EvErrorRecursion (depth : Z).

(** - [now]: the last value the clock showed;
    - [drift]: by how much the clock moves before each later reading of
      [Date.now()] (nothing once the list is used up);
    - [network]: what the successive calls of [fetch] meet;
    - [trace]: the events so far, the latest first. *)
Record World : Type := mkWorld {
  now : Z;
  drift : list Z;
  network : list FetchOutcome;
  trace : list Event
}.

End Env.

Import Env.

(* ================================================================== *)
(** * [rate-limiter.js] *)
(* ================================================================== *)

Module RateLimiter.

Record t : Type := mkLimiter {
  maxRequests : nat;
  windowMs : Z;
  requests : list Z
}.

(** [constructor(maxRequests, windowMs)] *)
Definition new (maxRequests : nat) (windowMs : Z) : t :=
  mkLimiter maxRequests windowMs [].

(** The limiter together with the world it runs in. *)
Record St : Type := mkSt { limiter : t; world : World }.

(** Computations that read and write [St] and may throw; a throw keeps
    the state reached. *)
Definition M (A : Type) : Type := St -> Js.result A * St.

Definition ret {A} (a : A) : M A := fun s => (Ok a, s).

Definition throw {A} (e : Js.error) : M A := fun s => (Throw e, s).

Definition mbind {A B} (m : M A) (k : A -> M B) : M B :=
  fun s =>
    match m s with
    | (Ok a, s') => k a s'
    | (Throw e, s') => (Throw e, s')
    end.

Definition try_catchM {A} (body : M A) (handler : Js.error -> M A) : M A :=
  fun s =>
    match body s with
    | (Ok a, s') => (Ok a, s')
    | (Throw e, s') => handler e s'
    end.

Notation "x <- m ;; k" := (mbind m (fun x => k))
  (at level 61, m at next level, right associativity).
Notation "m ;;; k" := (mbind m (fun _ => k))
  (at level 61, right associativity).

(** [Date.now()]: the clock moves by the next drift and is read. *)
Definition read_clock (s : St) : Z * St :=
  let w := world s in
  let t := now w + hd 0 (drift w) in
  (t, mkSt (limiter s) (mkWorld t (tl (drift w)) (network w) (trace w))).

Definition Date_now : M Z :=
  fun s => let (t, s') := read_clock s in (Ok t, s').

Definition emit (e : Event) : M unit :=
  fun s =>
    let w := world s in
    (Ok tt,
     mkSt (limiter s) (mkWorld (now w) (drift w) (network w) (e :: trace w))).

(** [await new Promise(resolve => setTimeout(resolve, ms))]: the caller
    resumes once the delay has passed, never before (delays stay below
    the 2^31 ms at which browsers wrap them); a negative delay or [NaN]
    is no delay. *)
Definition delay_of (ms : parsedInt) : Z :=
  match ms with
  | Int n => Z.max 0 n
  | NaN => 0
  end.

Definition setTimeout_await (ms : parsedInt) : M unit :=
  fun s =>
    let w := world s in
    (Ok tt,
     mkSt (limiter s)
          (mkWorld (now w + delay_of ms) (drift w) (network w)
                   (EvTimeout ms :: trace w))).

Definition get_limiter : M t := fun s => (Ok (limiter s), s).

Definition set_requests (rs : list Z) : M unit :=
  fun s =>
    let l := limiter s in
    (Ok tt, mkSt (mkLimiter (maxRequests l) (windowMs l) rs) (world s)).

(** [Array.prototype.slice(start)] *)
Definition Array_slice {A} (start : Z) (l : list A) : list A :=
  let len := Z.of_nat (List.length l) in
  let k := if start <? 0 then Z.max (len + start) 0 else Z.min start len in
  skipn (Z.to_nat k) l.

(** [_cleanupExpired()] *)
Definition _cleanupExpired : M Z :=
  now <- Date_now ;;
  l <- get_limiter ;;
  set_requests (filter (fun time => now - time <? windowMs l) (requests l)) ;;;
  ret now.

(** [cleanup()] *)
Definition cleanup : M unit :=
  _cleanupExpired ;;;
  l <- get_limiter ;;
  if Z.of_nat (maxRequests l) * 10 <? Z.of_nat (List.length (requests l))
  then
    set_requests (Array_slice (- Z.of_nat (maxRequests l)) (requests l)) ;;;
    emit EvWarnCapped
  else ret tt.

Definition MAX_RECURSION_DEPTH : nat := 10.

(** [acquire(depth)], with [remaining = MAX_RECURSION_DEPTH - depth]:
    the test [depth >= MAX_RECURSION_DEPTH] is the case [remaining = 0].
    The caller is the only task that runs while it waits. *)
Fixpoint acquire_from (remaining : nat) (depth : Z) : M unit :=
  match remaining with
  | O =>
      emit (EvErrorRecursion depth) ;;;
      throw (Js.Error
        "Rate limiter recursion limit exceeded - possible DoS attempt or timing issue")
  | S remaining' =>
      if negb CONFIG.FEATURES.ENABLE_RATE_LIMITING then ret tt
      else
        cleanup ;;;
        l <- get_limiter ;;
        if (maxRequests l <=? List.length (requests l))%nat then
          now <- Date_now ;;
          let waitTime :=
            match requests l with
            | oldestRequest :: _ => Int (windowMs l - (now - oldestRequest))
            | [] => NaN
            end in
          emit (EvWarnRateLimitReached (List.length (requests l)) waitTime) ;;;
          setTimeout_await waitTime ;;;
          acquire_from remaining' (depth + 1)
        else
          now <- Date_now ;;
          set_requests (requests l ++ [now])
  end.

Definition acquire : M unit := acquire_from MAX_RECURSION_DEPTH 0.

(** [canRequest()] *)
Definition canRequest : M bool :=
  _cleanupExpired ;;;
  l <- get_limiter ;;
  ret (List.length (requests l) <? maxRequests l)%nat.

Record Status : Type := mkStatus {
  remaining : Z;
  total : nat;
  resetIn : Z;
  window : Z
}.

(** [getStatus()] *)
Definition getStatus : M Status :=
  now <- _cleanupExpired ;;
  l <- get_limiter ;;
  let remaining :=
    Z.max 0 (Z.of_nat (maxRequests l) - Z.of_nat (List.length (requests l))) in
  let resetIn :=
    match requests l with
    | first :: _ => windowMs l - (now - first)
    | [] => 0
    end in
  ret (mkStatus remaining (maxRequests l) resetIn (windowMs l)).

(** [reset()] *)
Definition reset : M unit := set_requests [].

(** ** Sequences of calls *)

Inductive op : Type :=
| OpAcquire
| OpCanRequest
| OpGetStatus
| OpReset.

(** One call, run to completion before the next one is made (the
    caller awaits it); what it returns or throws is dropped, the state
    it leaves is kept.  Calls that overlap, a second [acquire()] made
    while a first one waits, are not sequences of this kind. *)
Definition step (s : St) (o : op) : St :=
  match o with
  | OpAcquire => snd (acquire s)
  | OpCanRequest => snd (canRequest s)
  | OpGetStatus => snd (getStatus s)
  | OpReset => snd (reset s)
  end.

Definition run (ops : list op) (s : St) : St := fold_left step ops s.

(** A new limiter in a world whose clock shows [t0]. *)
Definition start (maxRequests : nat) (windowMs : Z) (t0 : Z)
           (drift : list Z) : St :=
  mkSt (new maxRequests windowMs) (mkWorld t0 drift [] []).

(** [n] calls of [acquire], one after the other; for each call, whether
    it returned and what the clock showed when it completed. *)
Fixpoint acquire_times (n : nat) (s : St) : list (bool * Z) :=
  match n with
  | O => []
  | S n' =>
      let (r, s') := acquire s in
      (Js.returns r, now (world s')) :: acquire_times n' s'
  end.

(** ** One round of [acquire], step by step *)

(** The world after one reading of the clock. *)
Definition tick (w : World) : World :=
  mkWorld (now w + hd 0 (drift w)) (tl (drift w)) (network w) (trace w).

(** The limiter after the purge made at time [t]. *)
Definition purge (t : Z) (l : RateLimiter.t) : RateLimiter.t :=
  mkLimiter (maxRequests l) (windowMs l)
            (filter (fun time => t - time <? windowMs l) (requests l)).

Definition push (t : Z) (l : RateLimiter.t) : RateLimiter.t :=
  mkLimiter (maxRequests l) (windowMs l) (requests l ++ [t]).

Definition waitTime_of (l : RateLimiter.t) (t : Z) : parsedInt :=
  match requests l with
  | oldestRequest :: _ => Int (windowMs l - (t - oldestRequest))
  | [] => NaN
  end.

(** The state in which a round that has to wait resumes. *)
Definition round_wait (l : RateLimiter.t) (w : World) : St :=
  let w' := tick w in
  let waitTime := waitTime_of l (now w') in
  mkSt l (mkWorld (now w' + delay_of waitTime) (drift w') (network w')
                  (EvTimeout waitTime ::
                   EvWarnRateLimitReached (List.length (requests l)) waitTime ::
                   trace w')).

(** The state a round that finds a free slot leaves. *)
Definition round_push (l : RateLimiter.t) (w : World) : St :=
  let w' := tick w in mkSt (push (now w') l) w'.

(** ** The bound on the list of timestamps *)

Definition bounded (s : St) : Prop :=
  (List.length (requests (limiter s)) <= maxRequests (limiter s))%nat.

Definition never_capped (s : St) : Prop :=
  ~ In EvWarnCapped (trace (world s)).

Definition same_config (s s' : St) : Prop :=
  maxRequests (limiter s') = maxRequests (limiter s) /\
  windowMs (limiter s') = windowMs (limiter s).

(** ** The sliding window, seen from the first call *)

Section Window.

(** A limiter of [N] requests per [W] milliseconds, and [t1], the
    timestamp recorded by the first call. *)
Variables (N : nat) (W t1 : Z).

(** The clock never goes back and a timer never fires early: the
    drifts to come are not negative. *)
Definition basic (s : St) : Prop :=
  maxRequests (limiter s) = N /\
  windowMs (limiter s) = W /\
  (List.length (requests (limiter s)) <= N)%nat /\
  Forall (Z.le 0) (drift (world s)).

(** [t1] is still the oldest recorded timestamp, with [j - 1] later
    ones behind it. *)
Definition first_live (j : nat) (s : St) : Prop :=
  (exists rest, requests (limiter s) = t1 :: rest) /\
  List.length (requests (limiter s)) = j /\
  Forall (fun t => t1 <= t <= now (world s)) (requests (limiter s)).

(** The window that opened at [t1] has closed. *)
Definition first_expired (s : St) : Prop := t1 + W <= now (world s).

Definition track (j : nat) (s : St) : Prop :=
  first_live j s \/ first_expired s.

End Window.

(** ** [fetchWithRetry] *)

(** [fetch(url, ...)]: the next outcome of the network; a network that
    has nothing more to say fails the request.  The [AbortController]
    and its timer belong to the network: a request that is aborted is
    an outcome [Rejects] with an [AbortError]. *)
Definition fetch (url : string) : M HttpResponse :=
  fun s =>
    let w := world s in
    let s' outcome_rest :=
      mkSt (limiter s)
           (mkWorld (now w) (drift w) outcome_rest (EvFetch url :: trace w)) in
    match network w with
    | [] => (Throw (Js.TypeError "Failed to fetch"), s' [])
    | Responds r :: rest => (Ok r, s' rest)
    | Rejects e :: rest => (Throw e, s' rest)
    end.

(** How one round of the [for] loop ends, when it does not throw. *)
Inductive control : Type :=
| Continue (lastError : option Js.error)
| Return (response : HttpResponse).

Definition http_error (r : HttpResponse) : Js.error :=
  Js.Error ("HTTP " ++ string_of_Z (status r) ++ ": " ++ statusText r).

Definition backoff (attempt : Z) : Z :=
  Z.min (CONFIG.INITIAL_RETRY_DELAY_MS * 2 ^ attempt)
        CONFIG.MAX_RETRY_DELAY_MS.

Definition times_1000 (p : parsedInt) : parsedInt :=
  match p with
  | Int n => Int (n * 1000)
  | NaN => NaN
  end.

(** The body of the [try] in round [attempt]. *)
Definition attempt_body (url : string) (maxRetries : nat) (attempt : Z)
           (lastError : option Js.error) : M control :=
  response <- fetch url ;;
  if status response =? 429 then
    let retryAfter :=
      match retryAfter response with
      | Some p => p
      | None => Int 60
      end in
    setTimeout_await (times_1000 retryAfter) ;;;
    ret (Continue lastError)
  else if 500 <=? status response then
    let error := http_error response in
    if attempt =? Z.of_nat maxRetries - 1 then throw error
    else
      setTimeout_await (Int (backoff attempt)) ;;;
      ret (Continue (Some error))
  else if negb (ok response) then throw (http_error response)
  else ret (Return response).

(** The [catch (error)] of round [attempt]. *)
Definition attempt_catch (maxRetries : nat) (attempt : Z)
           (error : Js.error) : M control :=
  if attempt =? Z.of_nat maxRetries - 1 then throw error
  else
    setTimeout_await (Int (backoff attempt)) ;;;
    ret (Continue (Some error)).

(** The [for] loop from round [attempt] on, with
    [remaining = maxRetries - attempt] rounds to go. *)
Fixpoint fetch_loop (url : string) (maxRetries : nat) (remaining : nat)
         (attempt : Z) (lastError : option Js.error) : M HttpResponse :=
  match remaining with
  | O =>
      throw (match lastError with
             | Some e => e
             | None =>
                 Js.Error "Fetch failed after all retries with unknown error"
             end)
  | S remaining' =>
      c <- try_catchM (attempt_body url maxRetries attempt lastError)
                      (attempt_catch maxRetries attempt) ;;
      match c with
      | Return response => ret response
      | Continue lastError' =>
          fetch_loop url maxRetries remaining' (attempt + 1) lastError'
      end
  end.

(** [fetchWithRetry(url, options, maxRetries)] *)
Definition fetchWithRetry (url : string) (maxRetries : nat)
  : M HttpResponse :=
  acquire ;;;
  fetch_loop url maxRetries maxRetries 0 None.

(** The calls of [fetch] and the waits of a trace, oldest first. *)
Definition fetches (tr : list Event) : list string :=
  flat_map (fun e => match e with EvFetch u => [u] | _ => [] end) (rev tr).

Definition waits (tr : list Event) : list parsedInt :=
  flat_map (fun e => match e with EvTimeout ms => [ms] | _ => [] end)
           (rev tr).

End RateLimiter.

(* ================================================================== *)
(** * Regular expressions *)
(* ================================================================== *)

Module RegExp.

(** The patterns of the code are sequences and alternatives of single
    characters, [\d] and [.], each possibly repeated (greedily), around
    at most one capturing group. *)
Inductive cclass : Type :=
| Char (c : ascii)
| Digit
| AnyChar.

Inductive re : Type :=
| Eps
| One (c : cclass)
| Many (c : cclass) (lo : nat) (hi : option nat)
| Seq (r1 r2 : re)
| Alt (r1 r2 : re).

(** [/ before ( group1 ) after /], with the flags. *)
Record t : Type := mkRegExp {
  anchoredStart : bool;
  before : re;
  group1 : re;
  after : re;
  anchoredEnd : bool;
  ignoreCase : bool
}.

Fixpoint lit (s : string) : re :=
  match s with
  | EmptyString => Eps
  | String c s' => Seq (One (Char c)) (lit s')
  end.

Definition in_range (lo hi : nat) (x : ascii) : bool :=
  let n := nat_of_ascii x in ((lo <=? n) && (n <=? hi))%nat.

Definition is_digit (x : ascii) : bool := in_range 48 57 x.

Definition to_lower (x : ascii) : ascii :=
  if in_range 65 90 x then ascii_of_nat (nat_of_ascii x + 32) else x.

Definition is_line_terminator (x : ascii) : bool :=
  let n := nat_of_ascii x in ((n =? 10) || (n =? 13))%nat.

Definition accepts (ic : bool) (c : cclass) (x : ascii) : bool :=
  match c with
  | Char a =>
      if ic then Ascii.eqb (to_lower a) (to_lower x) else Ascii.eqb a x
  | Digit => is_digit x
  | AnyChar => negb (is_line_terminator x)
  end.

Fixpoint run_length (p : ascii -> bool) (s : list ascii) : nat :=
  match s with
  | x :: s' => if p x then S (run_length p s') else O
  | [] => O
  end.

Definition capped (hi : option nat) (n : nat) : nat :=
  match hi with
  | Some h => Nat.min h n
  | None => n
  end.

(** Greedy repetition: the longest count first, then one less, down to
    [lo]. *)
Fixpoint backtrack {A} (k : nat -> option A) (lo n : nat) : option A :=
  if (n <? lo)%nat then None
  else
    match k n with
    | Some a => Some a
    | None =>
        match n with
        | O => None
        | S n' => backtrack k lo n'
        end
    end.

(** The backtracking matcher: [r] against a prefix of [s], then the
    continuation [k] on what is left. *)
Fixpoint m {A} (ic : bool) (r : re) (s : list ascii)
         (k : list ascii -> option A) : option A :=
  match r with
  | Eps => k s
  | One c =>
      match s with
      | x :: s' => if accepts ic c x then k s' else None
      | [] => None
      end
  | Many c lo hi =>
      backtrack (fun j => k (skipn j s)) lo
                (capped hi (run_length (accepts ic c) s))
  | Seq r1 r2 => m ic r1 s (fun s' => m ic r2 s' k)
  | Alt r1 r2 =>
      match m ic r1 s k with
      | Some a => Some a
      | None => m ic r2 s k
      end
  end.

(** A match: [whole] is [match[0]], [capture1] is [match[1]]. *)
Record Match : Type := mkMatch {
  whole : list ascii;
  capture1 : list ascii
}.

Definition match_at (r : t) (s : list ascii) : option Match :=
  m (ignoreCase r) (before r) s (fun s1 =>
  m (ignoreCase r) (group1 r) s1 (fun s2 =>
  m (ignoreCase r) (after r) s2 (fun s3 =>
    let found :=
      mkMatch (firstn (List.length s - List.length s3) s)
              (firstn (List.length s1 - List.length s2) s1) in
    if anchoredEnd r
    then match s3 with [] => Some found | _ :: _ => None end
    else Some found))).

(** The leftmost match. *)
Fixpoint search (r : t) (s : list ascii) : option Match :=
  match match_at r s with
  | Some found => Some found
  | None =>
      if anchoredStart r then None
      else
        match s with
        | [] => None
        | _ :: s' => search r s'
        end
  end.

(** [str.match(r)] for a pattern without the [g] flag. *)
Definition String_match (str : string) (r : t) : option Match :=
  search r (list_ascii_of_string str).

(** [r.test(str)] *)
Definition test (r : t) (str : string) : bool :=
  match String_match str r with
  | Some _ => true
  | None => false
  end.

Definition group (mt : Match) : string :=
  string_of_list_ascii (capture1 mt).

(** The words a pattern stands for. *)
Fixpoint L (ic : bool) (r : re) (w : list ascii) : Prop :=
  match r with
  | Eps => w = []
  | One c => exists x, w = [x] /\ accepts ic c x = true
  | Many c lo hi =>
      Forall (fun x => accepts ic c x = true) w /\
      (lo <= List.length w)%nat /\
      (forall h, hi = Some h -> (List.length w <= h)%nat)
  | Seq r1 r2 => exists w1 w2, w = (w1 ++ w2)%list /\ L ic r1 w1 /\ L ic r2 w2
  | Alt r1 r2 => L ic r1 w \/ L ic r2 w
  end.

(** [tt\d+] and [tt\d{7,}] *)
Definition tt_digits (lo : nat) (hi : option nat) : re :=
  Seq (lit "tt") (Many Digit lo hi).

Definition dq : string := String (ascii_of_nat 34) "".

(** [CONFIG.PATTERNS.IMDB_ID = /^tt\d{7,8}$/] *)
Definition IMDB_ID : t :=
  mkRegExp true (tt_digits 7 (Some 8%nat)) Eps Eps true false.

(** [CONFIG.PATTERNS.YEAR = /^(19|20)\d{2}$/] *)
Definition YEAR : t :=
  mkRegExp true Eps (Alt (lit "19") (lit "20"))
           (Many Digit 2 (Some 2%nat)) true false.

(** [imdbLinkPatterns] of [MetadataResolver.findIMDbIdInPage] *)
Definition imdbLinkPatterns : list t :=
  [ (* /imdb\.com\/title\/(tt\d+)/i *)
    mkRegExp false (lit "imdb.com/title/") (tt_digits 1 None) Eps false true;
    (* /imdb\.com\/.*\/(tt\d+)/i *)
    mkRegExp false
             (Seq (lit "imdb.com/") (Seq (Many AnyChar 0 None) (lit "/")))
             (tt_digits 1 None) Eps false true;
    (* /"imdb_id":"(tt\d+)"/i *)
    mkRegExp false (lit (dq ++ "imdb_id" ++ dq ++ ":" ++ dq))
             (tt_digits 1 None) (lit dq) false true;
    (* /'imdb_id':'(tt\d+)'/i *)
    mkRegExp false (lit "'imdb_id':'") (tt_digits 1 None) (lit "'")
             false true ].

(** The two patterns of [PlexAPIClient.extractIMDbId]:
    [/imdb:\/\/(tt\d+)/i] and [/(tt\d{7,})/i]. *)
Definition plexGuidPattern : t :=
  mkRegExp false (lit "imdb://") (tt_digits 1 None) Eps false true.

Definition plexBarePattern : t :=
  mkRegExp false Eps (tt_digits 7 None) Eps false true.

(** ** The shapes of identifiers *)

Definition is_t (ic : bool) (x : ascii) : Prop :=
  if ic then to_lower x = "t"%char else x = "t"%char.

(** The letters [tt] (in either case when [ic]), then at least [lo]
    digits, and at most [hi] of them when [hi] is given. *)
Definition id_shape (ic : bool) (lo : nat) (hi : option nat) (id : string)
  : Prop :=
  exists a b ds,
    list_ascii_of_string id = a :: b :: ds /\
    is_t ic a /\ is_t ic b /\
    Forall (fun x => is_digit x = true) ds /\
    (lo <= List.length ds)%nat /\
    (forall h, hi = Some h -> (List.length ds <= h)%nat).

(** [^tt\d{7,8}$] *)
Definition strict_id (id : string) : Prop :=
  id_shape false 7 (Some 8%nat) id.

(** A pattern whose group is [tt] and digits, in either case. *)
Definition yields_tt_digits (r : t) : Prop :=
  ignoreCase r = true /\ exists lo, group1 r = tt_digits (S lo) None.

End RegExp.

(** Truthiness of a string that may be missing: [undefined], [null] and
    the empty string are falsy. *)
Definition truthy (s : option string) : option string :=
  match s with
  | Some "" => None
  | Some v => Some v
  | None => None
  end.

(* ================================================================== *)
(** * The cache shared by the clients *)
(* ================================================================== *)

(** [window.apiCache] is one object: the OMDb client, the Plex client
    and the resolver all hold it.  Its methods are called here at the
    clock of the world. *)
Module Window.

Section ApiCache.

Variable V : Type.

(** [apiCache.get(key)]: [get] calls [Date.now()] only for a key that
    it finds. *)
Definition apiCache_get (k : LRUCache.t V) (key : string)
           (n : RateLimiter.St)
  : option V * LRUCache.t V * RateLimiter.St :=
  match LRUCache.Map_get key (LRUCache.cache k) with
  | Some _ =>
      let (t, n') := RateLimiter.read_clock n in
      let (r, k') := LRUCache.get k t key in
      (r, k', n')
  | None =>
      let (r, k') := LRUCache.get k (now (RateLimiter.world n)) key in
      (r, k', n)
  end.

(** [apiCache.set(key, value)]: [set] calls [Date.now()] twice. *)
Definition apiCache_set (k : LRUCache.t V) (key : string) (v : V)
           (n : RateLimiter.St) : LRUCache.t V * RateLimiter.St :=
  let (t, n) := RateLimiter.read_clock n in
  let (t', n) := RateLimiter.read_clock n in
  (LRUCache.set k t t' key v, n).

End ApiCache.

Arguments apiCache_get {V} _ _ _.
Arguments apiCache_set {V} _ _ _ _.

End Window.

(* ================================================================== *)
(** * [plex-api-client.js] *)
(* ================================================================== *)

Module PlexAPIClient.

(** An element of [metadata.Guid]: an object with an [id], or a bare
    string. *)
Inductive guid : Type :=
| GuidObject (id : string)
| GuidString (s : string).

Record Metadata : Type := mkMetadata {
  title : string;
  originalTitle : option string;
  year : option string;
  type : option string;
  Guid : option (list guid)
}.

Record SearchTerms : Type := mkSearchTerms {
  st_title : string;
  st_originalTitle : string;
  st_year : option string;
  st_type : option string
}.

Record PlexData : Type := mkPlexData {
  imdbId : option string;
  searchTerms : option SearchTerms;
  metadata : Metadata
}.

Record t : Type := mkClient {
  plexToken : option string;
  plexUrl : option string
}.

(** [isAvailable()] *)
Definition isAvailable (c : t) : bool :=
  match truthy (plexToken c), truthy (plexUrl c) with
  | Some _, Some _ => true
  | _, _ => false
  end.

(** [id.match(/imdb:\/\/(tt\d+)/i) || id.match(/(tt\d{7,})/i)] *)
Definition imdbMatch (id : string) : option RegExp.Match :=
  match RegExp.String_match id RegExp.plexGuidPattern with
  | Some mt => Some mt
  | None => RegExp.String_match id RegExp.plexBarePattern
  end.

(** The [for (const guid of guids)] loop of [extractIMDbId].  With
    [guid.id || guid], an object whose [id] is empty is itself taken
    for the id, and has no [match] method. *)
Fixpoint scan_guids (guids : list guid) : Js.result (option string) :=
  match guids with
  | [] => Ok None
  | g :: rest =>
      match g with
      | GuidObject "" => Throw (Js.TypeError "id.match is not a function")
      | GuidObject id | GuidString id =>
          match imdbMatch id with
          | Some mt => Ok (Some (RegExp.group mt))
          | None => scan_guids rest
          end
      end
  end.

(** [extractIMDbId(metadata)] *)
Definition extractIMDbId (metadata : option Metadata)
  : Js.result (option string) :=
  match metadata with
  | None => Ok None
  | Some md =>
      scan_guids (match Guid md with Some guids => guids | None => [] end)
  end.

(** [getBestSearchTerms(metadata)] *)
Definition getBestSearchTerms (metadata : option Metadata)
  : option SearchTerms :=
  match metadata with
  | None => None
  | Some md =>
      Some (mkSearchTerms
              (title md)
              (match truthy (originalTitle md) with
               | Some o => o
               | None => title md
               end)
              (truthy (year md))
              (type md))
  end.

(** What [window.apiCache] holds: the replies of OMDb, stored by
    [OMDBClient.request], and the metadata of the Plex server, stored
    by [fetchMetadata]. *)
Inductive Cached : Type :=
| CachedOmdb (data : OmdbData)
| CachedPlex (md : Metadata).

(** A cached object read as metadata.  A reply of OMDb has none of the
    fields read here; its missing [title] is rendered by the empty one,
    which the code cannot tell from it: the title is tested for truth
    and handed to [searchByTitle], which tests it first. *)
Definition as_metadata (v : Cached) : Metadata :=
  match v with
  | CachedPlex md => md
  | CachedOmdb _ => mkMetadata "" None None None None
  end.

(** The reply of the Plex server as far as [fetchMetadata] reads it;
    [first_metadata] is what [response.json()] resolves to, reduced to
    [data.MediaContainer?.Metadata?.[0]]: [None] when that is missing,
    a [Throw] when the body cannot be read. *)
Record PlexResponse : Type := mkPlexResponse {
  plex_status : Z;
  plex_statusText : string;
  first_metadata : Js.result (option Metadata)
}.

Definition plex_ok (r : PlexResponse) : bool :=
  (200 <=? plex_status r) && (plex_status r <=? 299).

(** What the [fetch] of [fetchMetadata] meets: a response, or a
    rejection (network failure, or the abort after
    [PLEX_API_TIMEOUT_MS]). *)
Inductive PlexOutcome : Type :=
| PlexResponds (r : PlexResponse)
| PlexRejects (e : Js.error).

Definition cacheKey (ratingKey : string) : string :=
  "plex_metadata_" ++ ratingKey.

Definition apiUrl (url ratingKey : string) : string :=
  url ++ "/library/metadata/" ++ ratingKey.

(** [fetchMetadata(ratingKey)], on the shared cache [k] and in the world
    of [n]; [server] is what its [fetch] meets.  Whatever is thrown
    inside the [try] ends in [return null]. *)
Definition fetchMetadata (c : t) (server : PlexOutcome)
           (ratingKey : string)
           (k : LRUCache.t Cached) (n : RateLimiter.St)
  : option Metadata * LRUCache.t Cached * RateLimiter.St :=
  match isAvailable c, plexUrl c with
  | true, Some url =>
      let '(cached, k, n) := Window.apiCache_get k (cacheKey ratingKey) n in
      match cached with
      | Some v => (Some (as_metadata v), k, n)
      | None =>
          let n :=
            snd (RateLimiter.emit (EvFetch (apiUrl url ratingKey)) n) in
          match server with
          | PlexRejects _ => (None, k, n)
          | PlexResponds response =>
              if negb (plex_ok response) then (None, k, n)
              else
                match first_metadata response with
                | Throw _ => (None, k, n)
                | Ok None => (None, k, n)
                | Ok (Some metadata) =>
                    let (k, n) :=
                      Window.apiCache_set k (cacheKey ratingKey)
                                          (CachedPlex metadata) n in
                    (Some metadata, k, n)
                end
          end
      end
  | _, _ => (None, k, n)
  end.

(** [getIMDbDataFromPage()]; [ratingKey] is what [extractRatingKey]
    finds in the URL of the page. *)
Definition getIMDbDataFromPage (c : t) (ratingKey : option string)
           (server : PlexOutcome)
           (k : LRUCache.t Cached) (n : RateLimiter.St)
  : Js.result (option PlexData) * LRUCache.t Cached * RateLimiter.St :=
  match truthy ratingKey with
  | None => (Ok None, k, n)
  | Some key =>
      let '(fetched, k, n) := fetchMetadata c server key k n in
      match fetched with
      | None => (Ok None, k, n)
      | Some md =>
          (Js.bind (extractIMDbId (Some md)) (fun imdbId =>
           Ok (Some (mkPlexData imdbId (getBestSearchTerms (Some md)) md))),
           k, n)
      end
  end.

End PlexAPIClient.

(* ================================================================== *)
(** * [api-client.js] *)
(* ================================================================== *)

Module OMDBClient.

(** The client with the singletons it holds: the cache, which is
    [window.apiCache], and the rate limiter in its world. *)
Record t : Type := mkClient {
  apiKey : option string;
  cache : LRUCache.t PlexAPIClient.Cached;
  net : RateLimiter.St
}.

(** A cached object read as a reply of OMDb.  Plex metadata has none of
    the fields read here ([imdbID] is [undefined] on it); [Response] is
    not read on a cached object. *)
Definition as_omdb (v : PlexAPIClient.Cached) : OmdbData :=
  match v with
  | PlexAPIClient.CachedOmdb data => data
  | PlexAPIClient.CachedPlex _ => mkOmdbData "" None None
  end.

(** ** [URLSearchParams.prototype.toString] *)

Definition hex_digit (n : nat) : ascii :=
  nth n (list_ascii_of_string "0123456789ABCDEF") "0"%char.

Definition unreserved (x : ascii) : bool :=
  RegExp.in_range 48 57 x || RegExp.in_range 65 90 x ||
  RegExp.in_range 97 122 x ||
  existsb (Ascii.eqb x) (list_ascii_of_string "*-._").

(** [%XX] for the byte [n]. *)
Definition percent_byte (n : nat) : string :=
  String "%"%char
         (String (hex_digit (n / 16)) (String (hex_digit (n mod 16)) "")).

(** The UTF-8 bytes of a code unit: itself below 128, two bytes from
    there. *)
Definition UTF8_bytes (n : nat) : list nat :=
  if (n <? 128)%nat then [n] else [192 + n / 64; 128 + n mod 64]%nat.

(** The serializer works on the UTF-8 bytes of the string: a byte of
    the unreserved set stands for itself, the space becomes [+], any
    other byte is percent-encoded. *)
Definition encode_char (x : ascii) : string :=
  if unreserved x then String x ""
  else if Ascii.eqb x " "%char then "+"
  else String.concat "" (map percent_byte (UTF8_bytes (nat_of_ascii x))).

Fixpoint encode (s : string) : string :=
  match s with
  | EmptyString => ""
  | String x s' => encode_char x ++ encode s'
  end.

Fixpoint URLSearchParams_toString (params : list (string * string))
  : string :=
  match params with
  | [] => ""
  | [(k, v)] => encode k ++ "=" ++ encode v
  | (k, v) :: rest =>
      encode k ++ "=" ++ encode v ++ "&" ++ URLSearchParams_toString rest
  end.

(** ** [String.prototype.trim] *)

Definition is_space (x : ascii) : bool :=
  let n := nat_of_ascii x in
  (RegExp.in_range 9 13 x || (n =? 32) || (n =? 160))%nat.

Fixpoint trim_start (s : list ascii) : list ascii :=
  match s with
  | x :: s' => if is_space x then trim_start s' else s
  | [] => []
  end.

Definition trim (s : string) : string :=
  string_of_list_ascii
    (rev (trim_start (rev (trim_start (list_ascii_of_string s))))).

(** ** The client *)

Definition with_net (c : t) (n : RateLimiter.St) : t :=
  mkClient (apiKey c) (cache c) n.

Definition with_cache (c : t) (k : LRUCache.t PlexAPIClient.Cached) : t :=
  mkClient (apiKey c) k (net c).

(** A reading of [Date.now()] in the client's world. *)
Definition clock (c : t) : Z * t :=
  let (now, n) := RateLimiter.read_clock (net c) in (now, with_net c n).

(** The [try] of [request]: fetch, read the body, check it, cache it. *)
Definition request_body (c : t) (url cacheKey : string)
  : Js.result OmdbData * t :=
  match RateLimiter.fetchWithRetry url CONFIG.MAX_RETRY_ATTEMPTS (net c) with
  | (Throw e, n) => (Throw e, with_net c n)
  | (Ok response, n) =>
      let c := with_net c n in
      match json response with
      | Throw e => (Throw e, c)
      | Ok data =>
          if negb (String.eqb (Response data) "True") then
            (Throw (Js.Error (match truthy (Error data) with
                              | Some msg => msg
                              | None => "API request failed"
                              end)), c)
          else if CONFIG.FEATURES.ENABLE_CACHE then
            let (now, c) := clock c in
            let (now', c) := clock c in
            (Ok data,
             with_cache c (LRUCache.set (cache c) now now' cacheKey
                                        (PlexAPIClient.CachedOmdb data)))
          else (Ok data, c)
      end
  end.

(** [request(params)]; its [catch] logs and throws the error again. *)
Definition request (c : t) (params : list (string * string))
  : Js.result OmdbData * t :=
  match truthy (apiKey c) with
  | None => (Throw (Js.Error "API key not configured"), c)
  | Some key =>
      let fullParams := URLSearchParams_toString (("apikey", key) :: params) in
      let cacheKey := "omdb:" ++ fullParams in
      let url := CONFIG.OMDB_BASE_URL ++ "?" ++ fullParams in
      if CONFIG.FEATURES.ENABLE_CACHE then
        let '(cached, k, n) :=
          Window.apiCache_get (cache c) cacheKey (net c) in
        let c := mkClient (apiKey c) k n in
        match cached with
        | Some data => (Ok (as_omdb data), c)
        | None => request_body c url cacheKey
        end
      else request_body c url cacheKey
  end.

(** [searchByTitle(title, year = '', type = 'movie')] *)
Definition searchByTitle (c : t) (title : string) (year : string)
  : Js.result OmdbData * t :=
  match truthy (Some title) with
  | None => (Throw (Js.Error "Invalid title parameter"), c)
  | Some _ =>
      let params := [("t", trim title); ("type", "movie")] in
      let params :=
        match truthy (Some year) with
        | Some y =>
            if RegExp.test RegExp.YEAR y
            then (params ++ [("y", y)])%list
            else params
        | None => params
        end in
      request c params
  end.

(** [getByIMDbId(imdbId)] *)
Definition getByIMDbId (c : t) (imdbId : string)
  : Js.result OmdbData * t :=
  if negb (RegExp.test RegExp.IMDB_ID imdbId) then
    (Throw (Js.Error ("Invalid IMDb ID format: " ++ imdbId)), c)
  else request c [("i", imdbId); ("plot", "short")].

End OMDBClient.

(* ================================================================== *)
(** * [content.js]: link construction and the earlier lookup *)
(* ================================================================== *)

Module Content.

(** [createIMDbLink(imdbId, rating, votes)], as far as the identifier
    goes: the guard, and the [href] of the link it builds. *)
Definition createIMDbLink (imdbId : string) : Js.result string :=
  if negb (RegExp.test RegExp.IMDB_ID imdbId) then
    Throw (Js.Error ("Invalid IMDb ID format: " ++ imdbId))
  else Ok ("https://www.imdb.com/title/" ++ imdbId ++ "/").

(** The API part of [findIMDbId(movieInfo)]: the search runs inside a
    [try], and a failure gives [null]. *)
Definition findIMDbId_api (c : OMDBClient.t) (title : string)
           (year : option string) : Js.result (option string) * OMDBClient.t :=
  let (r, c') :=
    OMDBClient.searchByTitle c title
      (match truthy year with Some y => y | None => "" end) in
  (try_catch
     (Js.bind r (fun data => Ok (truthy (imdbID data))))
     (fun _ => Ok None),
   c').

End Content.

(* ================================================================== *)
(** * [metadata-resolver.js] *)
(* ================================================================== *)

Module MetadataResolver.

Record MovieInfo : Type := mkMovieInfo {
  title : string;
  year : option string
}.

(** What the resolver finds around it: the page's HTML, the Plex client
    (if the script is loaded), the rating key that [extractRatingKey]
    finds in the page's URL, and what the Plex server answers when it is
    asked for the metadata of that item. *)
Record Page : Type := mkPage {
  innerHTML : string;
  plexClient : option PlexAPIClient.t;
  ratingKey : option string;
  plexServer : PlexAPIClient.PlexOutcome
}.

(** The [for (const pattern of imdbLinkPatterns)] loop. *)
Fixpoint first_match (bodyText : string) (patterns : list RegExp.t)
  : option string :=
  match patterns with
  | [] => None
  | pattern :: rest =>
      match RegExp.String_match bodyText pattern with
      | Some mt => Some (RegExp.group mt)
      | None => first_match bodyText rest
      end
  end.

(** [findIMDbIdInPage()] *)
Definition findIMDbIdInPage (page : Page) : option string :=
  first_match (innerHTML page) RegExp.imdbLinkPatterns.

Definition or_empty (s : option string) : string :=
  match truthy s with
  | Some v => v
  | None => ""
  end.

(** Strategy 3: the search with the title read from the page. *)
Definition strategy3 (c : OMDBClient.t) (movieInfo : MovieInfo)
  : Js.result (option string) * OMDBClient.t :=
  match OMDBClient.searchByTitle c (title movieInfo)
                                 (or_empty (year movieInfo)) with
  | (Throw e, c') => (Throw e, c')
  | (Ok omdbData, c') =>
      match truthy (imdbID omdbData) with
      | Some id => (Ok (Some id), c')
      | None => (Ok None, c')
      end
  end.

(** Strategy 2, once the Plex client [plex] is known to be available.
    The lookup of the Plex client reads and writes the cache that the
    OMDb client holds, and runs in the same world. *)
Definition strategy2 (page : Page) (plex : PlexAPIClient.t)
           (c : OMDBClient.t) (movieInfo : MovieInfo)
  : Js.result (option string) * OMDBClient.t :=
  let '(r, k, n) :=
    PlexAPIClient.getIMDbDataFromPage plex (ratingKey page) (plexServer page)
                                      (OMDBClient.cache c) (OMDBClient.net c) in
  let c := OMDBClient.mkClient (OMDBClient.apiKey c) k n in
  match r with
  | Throw e => (Throw e, c)
  | Ok plexData =>
      match truthy (match plexData with
                    | Some d => PlexAPIClient.imdbId d
                    | None => None
                    end) with
      | Some id => (Ok (Some id), c)
      | None =>
          match (match plexData with
                 | Some d => PlexAPIClient.searchTerms d
                 | None => None
                 end) with
          | Some terms =>
              match OMDBClient.searchByTitle c
                      (PlexAPIClient.st_originalTitle terms)
                      (or_empty (PlexAPIClient.st_year terms)) with
              | (Throw e, c') => (Throw e, c')
              | (Ok omdbData, c') =>
                  match truthy (imdbID omdbData) with
                  | Some id => (Ok (Some id), c')
                  | None => strategy3 c' movieInfo
                  end
              end
          | None => strategy3 c movieInfo
          end
      end
  end.

(** [resolveIMDbId(movieInfo)]; [this.plexClient?.isAvailable()] is
    falsy without a Plex client. *)
Definition resolveIMDbId (page : Page) (c : OMDBClient.t)
           (movieInfo : MovieInfo)
  : Js.result (option string) * OMDBClient.t :=
  match truthy (findIMDbIdInPage page) with
  | Some pageImdbId => (Ok (Some pageImdbId), c)
  | None =>
      match plexClient page with
      | Some plex =>
          if PlexAPIClient.isAvailable plex
          then strategy2 page plex c movieInfo
          else strategy3 c movieInfo
      | None => strategy3 c movieInfo
      end
  end.

End MetadataResolver.

(* ================================================================== *)
(** * Concrete pages, replies and clients *)
(* ================================================================== *)

Module Scenario.

Import MetadataResolver.

(** An OMDb reply for a title the provider does not know. *)
Definition not_found_reply : FetchOutcome :=
  Responds (mkResponse 200 "OK" None
              (Ok (mkOmdbData "False" (Some "Movie not found!") None))).

Definition reply_404 : FetchOutcome :=
  Responds (mkResponse 404 "Not Found" None
              (Throw (Js.mkError "SyntaxError" "Unexpected token"))).

(** A new limiter with the configured quota, in a world whose network
    answers with [replies]. *)
Definition net_of (replies : list FetchOutcome) : RateLimiter.St :=
  RateLimiter.mkSt
    (RateLimiter.new CONFIG.MAX_REQUESTS_PER_HOUR CONFIG.RATE_LIMIT_WINDOW_MS)
    (mkWorld 0 [] replies []).

(** A client with an API key and an empty cache. *)
Definition client_of (replies : list FetchOutcome) : OMDBClient.t :=
  OMDBClient.mkClient
    (Some "abcd1234")
    (LRUCache.new PlexAPIClient.Cached
                  CONFIG.CACHE_MAX_SIZE CONFIG.CACHE_TTL_MINUTES)
    (net_of replies).

(** No Plex server answers. *)
Definition no_plex_server : PlexAPIClient.PlexOutcome :=
  PlexAPIClient.PlexRejects (Js.TypeError "Failed to fetch").

(** A page without any identifier, and no Plex client. *)
Definition plain_page : Page :=
  mkPage "<div>Some Film</div>" None None no_plex_server.

(** A page with a link whose identifier has a single digit. *)
Definition short_id_page : Page :=
  mkPage "<a href='https://www.imdb.com/title/tt1/'>IMDb</a>" None None
         no_plex_server.

Definition unknown_movie : MovieInfo :=
  mkMovieInfo "Nonexistent" (Some "2010").

Definition matrix_page : Page :=
  mkPage "<a href='https://www.imdb.com/title/tt0133093/'>IMDb</a>"
         None None no_plex_server.


(** Caches *)

Import LRUCache.

Definition two_sets : list (op unit) :=
  [OpSet 0 0 "a" tt; OpSet 5 5 "b" tt].

(** A full cache of two entries, ["a"] the least recently used. *)
Definition full2 : LRUCache.t unit := run two_sets (new unit 2 60).

(** Values for the examples: [true] stands for an object that refers to
    itself. *)
Definition circular : Js.error :=
  Js.TypeError "Converting circular structure to JSON".

Definition stringify_example (v : bool) : stringified :=
  if v then JsonThrows circular else JsonText "{}".

Definition one_circular : LRUCache.t bool :=
  set (new bool 100 60) 0 0 "movie" true.

End Scenario.

(* ================================================================== *)
(** * [url-utils.js] and the rating key of the Plex client *)
(* ================================================================== *)

Module URLUtils.

Section Decode.

(** The built-in [decodeURIComponent]: the decoded text, or a
    [URIError]. *)
Variable decodeURIComponent : string -> Js.result string.

(** [safeDecode(url, maxLength)]; [decoded.length > maxLength * 2.5] is
    compared on whole numbers. *)
Definition safeDecode (url : string) (maxLength : nat) : string :=
  let url :=
    if (maxLength <? String.length url)%nat
    then substring 0 maxLength url
    else url in
  match decodeURIComponent url with
  | Ok decoded =>
      if (5 * maxLength <? 2 * String.length decoded)%nat then url
      else decoded
  | Throw _ => url
  end.

(** One [for (const pattern of patterns)] loop of [extractPattern] on
    [text]: a match whose group is empty, or that the validator refuses,
    lets the loop go on. *)
Fixpoint try_patterns (text : string) (patterns : list RegExp.t)
         (validator : option RegExp.t) : option string :=
  match patterns with
  | [] => None
  | pattern :: rest =>
      match RegExp.String_match text pattern with
      | Some mt =>
          match truthy (Some (RegExp.group mt)) with
          | Some value =>
              match validator with
              | Some v =>
                  if negb (RegExp.test v value)
                  then try_patterns text rest validator
                  else Some value
              | None => Some value
              end
          | None => try_patterns text rest validator
          end
      | None => try_patterns text rest validator
      end
  end.

(** [extractPattern(url, patterns, validator)] *)
Definition extractPattern (url : string) (patterns : list RegExp.t)
           (validator : option RegExp.t) : option string :=
  let decoded := safeDecode url 2000 in
  match try_patterns decoded patterns validator with
  | Some value => Some value
  | None =>
      if negb (String.eqb decoded url)
      then try_patterns url patterns validator
      else None
  end.

(** The patterns of [PlexAPIClient.extractRatingKey]:
    [/[?&]key=\/library\/metadata\/(\d+)/],
    [/\/library\/metadata\/(\d+)/] and [/ratingKey=(\d+)/]. *)
Definition ratingKeyPatterns : list RegExp.t :=
  [ RegExp.mkRegExp false
      (RegExp.Seq (RegExp.Alt (RegExp.One (RegExp.Char "?"))
                              (RegExp.One (RegExp.Char "&")))
                  (RegExp.lit "key=/library/metadata/"))
      (RegExp.Many RegExp.Digit 1 None) RegExp.Eps false false;
    RegExp.mkRegExp false (RegExp.lit "/library/metadata/")
      (RegExp.Many RegExp.Digit 1 None) RegExp.Eps false false;
    RegExp.mkRegExp false (RegExp.lit "ratingKey=")
      (RegExp.Many RegExp.Digit 1 None) RegExp.Eps false false ].

(** [/^\d+$/] *)
Definition digitsOnly : RegExp.t :=
  RegExp.mkRegExp true (RegExp.Many RegExp.Digit 1 None) RegExp.Eps
                  RegExp.Eps true false.

(** [PlexAPIClient.extractRatingKey(url)] *)
Definition extractRatingKey (url : string) : option string :=
  extractPattern url ratingKeyPatterns (Some digitsOnly).

End Decode.

End URLUtils.

(* ================================================================== *)
(** * Notions used to state the properties *)
(* ================================================================== *)

Module Notions.

(** The key under which [OMDBClient.request] caches the reply to
    [params], for the API key [key]. *)
Definition cacheKey (key : string) (params : list (string * string))
  : string :=
  "omdb:" ++ OMDBClient.URLSearchParams_toString (("apikey", key) :: params).

(** How often the character [x] occurs in [s]. *)
Fixpoint occurrences (x : ascii) (s : string) : nat :=
  match s with
  | EmptyString => 0
  | String y s' => ((if Ascii.eqb x y then 1 else 0) + occurrences x s')%nat
  end.

(** A non-empty string of decimal digits. *)
Definition numeric (s : string) : Prop :=
  s <> "" /\
  Forall (fun x => RegExp.is_digit x = true) (list_ascii_of_string s).

(** A year the provider is asked for: [19] or [20] and two digits. *)
Definition year_shape (y : string) : Prop :=
  exists c d,
    RegExp.is_digit c = true /\ RegExp.is_digit d = true /\
    (y = String "1" (String "9" (String c (String d ""))) \/
     y = String "2" (String "0" (String c (String d "")))).

(** The messages of the two errors that end a call without a result. *)
Definition recursion_error : Js.error :=
  Js.Error
    "Rate limiter recursion limit exceeded - possible DoS attempt or timing issue".

Definition unknown_error : Js.error :=
  Js.Error "Fetch failed after all retries with unknown error".

(** The wait that a reply 429 asks for. *)
Definition retry_wait (r : HttpResponse) : parsedInt :=
  RateLimiter.times_1000
    (match retryAfter r with Some p => p | None => Int 60 end).

(** The calls of [fetch] recorded in a state. *)
Definition fetched (s : RateLimiter.St) : list string :=
  RateLimiter.fetches (trace (RateLimiter.world s)).

(** A computation that never calls [fetch]. *)
Definition quiet {A} (m : RateLimiter.M A) : Prop :=
  forall s, fetched (snd (m s)) = fetched s.

(** A pattern whose group is [\d+]. *)
Definition captures_digits (r : RegExp.t) : Prop :=
  RegExp.group1 r = RegExp.Many RegExp.Digit 1 None.

End Notions.

(* ================================================================== *)
(** * More concrete inputs *)
(* ================================================================== *)

Module Examples.

(** Three entries that [JSON.stringify] renders as [{}]. *)
Definition three_plain : LRUCache.t bool :=
  LRUCache.run [LRUCache.OpSet 0 0 "a" false; LRUCache.OpSet 0 0 "bc" false;
                LRUCache.OpSet 0 0 "def" false]
               (LRUCache.new bool 100 60).

Definition reply_500 : HttpResponse :=
  mkResponse 500 "Internal Server Error" None
             (Throw (Js.mkError "SyntaxError" "Unexpected token")).

Definition inception : OmdbData :=
  mkOmdbData "True" None (Some "tt1375666").

Definition reply_ok : HttpResponse := mkResponse 200 "OK" None (Ok inception).

Definition reply_429 : HttpResponse :=
  mkResponse 429 "Too Many Requests" (Some (Int 2))
             (Throw (Js.mkError "SyntaxError" "Unexpected token")).

(** A page of the Plex web application with a configured Plex client
    and the metadata of one film. *)
Definition matrix_metadata : PlexAPIClient.Metadata :=
  PlexAPIClient.mkMetadata
    "Matrix" (Some "The Matrix") (Some "1999") (Some "movie")
    (Some [PlexAPIClient.GuidObject "imdb://tt0133093";
           PlexAPIClient.GuidObject "tmdb://603"]).

Definition plex_page : MetadataResolver.Page :=
  MetadataResolver.mkPage
    "<div>Matrix</div>"
    (Some (PlexAPIClient.mkClient (Some "token")
                                  (Some "https://plex.local:32400")))
    (Some "12345")
    (PlexAPIClient.PlexResponds
       (PlexAPIClient.mkPlexResponse 200 "OK" (Ok (Some matrix_metadata)))).

(** A [decodeURIComponent] for URLs without escapes. *)
Definition decode_plain (s : string) : Js.result string := Ok s.

End Examples.

(* ================================================================== *)
(** * Properties of the cache *)
(* ================================================================== *)

Module CacheFacts.

Import LRUCache.

Section MapFacts.

Variable V : Type.
Implicit Types (m : JsMap V) (k key : string) (item : CacheItem V).

Lemma Map_get_None_iff k m :
  Map_get k m = None <-> ~ In k (map fst m).
Proof.
  induction m as [|[k' i'] m IH]; simpl.
  - tauto.
  - destruct (String.eqb_spec k k') as [->|Hne].
    + split; [discriminate | intros H; exfalso; apply H; now left].
    + rewrite IH. split.
      * intros H [E|I]; [congruence | tauto].
      * intros H I. apply H. now right.
Qed.

Lemma Map_delete_length k m item :
  Map_get k m = Some item ->
  S (List.length (Map_delete k m)) = List.length m.
Proof.
  induction m as [|[k' i'] m IH]; simpl; [discriminate|].
  destruct (String.eqb k k'); [reflexivity|].
  intros H. simpl. now rewrite IH.
Qed.

Lemma Map_delete_length_le k m :
  (List.length (Map_delete k m) <= List.length m)%nat.
Proof.
  induction m as [|[k' i'] m IH]; simpl; [lia|].
  destruct (String.eqb k k'); simpl; lia.
Qed.

Lemma Map_set_length_le k item m :
  (List.length (Map_set k item m) <= S (List.length m))%nat.
Proof.
  induction m as [|[k' i'] m IH]; simpl; [lia|].
  destruct (String.eqb k k'); simpl; lia.
Qed.

Lemma Map_set_present_length k item old m :
  Map_get k m = Some old ->
  List.length (Map_set k item m) = List.length m.
Proof.
  induction m as [|[k' i'] m IH]; simpl; [discriminate|].
  destruct (String.eqb k k'); simpl; [reflexivity|].
  intros H. now rewrite IH.
Qed.

Lemma Map_set_fresh k item m :
  Map_get k m = None -> Map_set k item m = (m ++ [(k, item)])%list.
Proof.
  induction m as [|[k' i'] m IH]; simpl; [reflexivity|].
  destruct (String.eqb k k'); [discriminate|].
  intros H. now rewrite IH.
Qed.

Lemma Map_get_set_same k item m :
  Map_get k (Map_set k item m) = Some item.
Proof.
  induction m as [|[k' i'] m IH]; simpl.
  - now rewrite String.eqb_refl.
  - destruct (String.eqb k k') eqn:E; simpl; now rewrite E.
Qed.

Lemma Map_delete_keys_incl k m :
  incl (map fst (Map_delete k m)) (map fst m).
Proof.
  induction m as [|[k' i'] m IH]; simpl; [apply incl_refl|].
  destruct (String.eqb k k').
  - apply incl_tl, incl_refl.
  - simpl. apply incl_cons; [now left|]. now apply incl_tl.
Qed.

Lemma Map_delete_NoDup k m :
  NoDup (map fst m) -> NoDup (map fst (Map_delete k m)).
Proof.
  induction m as [|[k' i'] m IH]; simpl; [auto|].
  intros H. inversion H as [|? ? Hnin Hnd]; subst.
  destruct (String.eqb k k'); [assumption|].
  simpl. constructor; [|auto].
  intros I. apply Hnin. now apply (Map_delete_keys_incl k m).
Qed.

Lemma Map_get_delete_same k m :
  NoDup (map fst m) -> Map_get k (Map_delete k m) = None.
Proof.
  induction m as [|[k' i'] m IH]; simpl; [reflexivity|].
  intros H. inversion H as [|? ? Hnin Hnd]; subst.
  destruct (String.eqb_spec k k') as [->|Hne].
  - now apply Map_get_None_iff.
  - simpl. destruct (String.eqb_spec k k'); [contradiction|auto].
Qed.

Lemma Map_get_delete_other k k' m :
  k <> k' -> Map_get k (Map_delete k' m) = Map_get k m.
Proof.
  intros Hne.
  induction m as [|[k0 i0] m IH]; simpl; [reflexivity|].
  destruct (String.eqb_spec k' k0) as [->|Hne'].
  - destruct (String.eqb_spec k k0); [contradiction|reflexivity].
  - simpl. now rewrite IH.
Qed.

Lemma Map_set_keys k item m :
  incl (map fst (Map_set k item m)) (k :: map fst m).
Proof.
  induction m as [|[k' i'] m IH]; simpl.
  - apply incl_refl.
  - destruct (String.eqb k k'); simpl.
    + apply incl_tl, incl_refl.
    + apply incl_cons; [right; now left|].
      intros x I. destruct (IH x I) as [<-|I']; [now left|right; now right].
Qed.

Lemma Map_set_NoDup k item m :
  NoDup (map fst m) -> NoDup (map fst (Map_set k item m)).
Proof.
  induction m as [|[k' i'] m IH]; simpl.
  - intros _. constructor; [intros []|constructor].
  - intros H. inversion H as [|? ? Hnin Hnd]; subst.
    destruct (String.eqb_spec k k') as [->|Hne]; simpl.
    + now constructor.
    + constructor; [|auto].
      intros I. destruct (Map_set_keys k item m _ I) as [E|I'];
        [congruence | contradiction].
Qed.

End MapFacts.

Section CacheFacts.

Variable V : Type.
Implicit Types (c : LRUCache.t V) (o : op V) (ops : list (op V)).

Lemma step_maxSize c o : maxSize (step c o) = maxSize c.
Proof.
  destruct o as [t key|t t' key v|t key|key|]; simpl; try reflexivity.
  - unfold get. destruct (Map_get key (cache c)) as [item|]; [|reflexivity].
    now destruct (expiry item <? t).
  - unfold has, get.
    destruct (Map_get key (cache c)) as [item|]; [|reflexivity].
    now destruct (expiry item <? t).
Qed.

Lemma step_ttl c o : ttl (step c o) = ttl c.
Proof.
  destruct o as [t key|t t' key v|t key|key|]; simpl; try reflexivity.
  - unfold get. destruct (Map_get key (cache c)) as [item|]; [|reflexivity].
    now destruct (expiry item <? t).
  - unfold has, get.
    destruct (Map_get key (cache c)) as [item|]; [|reflexivity].
    now destruct (expiry item <? t).
Qed.

Lemma has_get c now key : snd (has c now key) = snd (get c now key).
Proof. unfold has. now destruct (get c now key). Qed.

(** The entries after [get]. *)
Lemma get_cache c now key :
  cache (snd (get c now key)) =
  match Map_get key (cache c) with
  | None => cache c
  | Some item =>
      if expiry item <? now then Map_delete key (cache c)
      else Map_set key item (Map_delete key (cache c))
  end.
Proof.
  unfold get. destruct (Map_get key (cache c)) as [item|]; [|reflexivity].
  now destruct (expiry item <? now).
Qed.

Lemma get_size_le c now key :
  (Map_size (cache (snd (get c now key))) <= Map_size (cache c))%nat.
Proof.
  rewrite get_cache. unfold Map_size.
  destruct (Map_get key (cache c)) as [item|] eqn:E; [|lia].
  pose proof (Map_delete_length V key (cache c) item E).
  destruct (expiry item <? now); [lia|].
  pose proof (Map_set_length_le V key item (Map_delete key (cache c))).
  lia.
Qed.

Lemma set_size_le c now now' key v :
  (1 <= maxSize c)%nat ->
  (Map_size (cache c) <= maxSize c)%nat ->
  (Map_size (cache (set c now now' key v)) <= maxSize c)%nat.
Proof.
  unfold set, Map_size. simpl. intros Hpos Hle.
  set (item := mkItem v (now + ttl c) now').
  destruct (Nat.leb_spec (maxSize c) (List.length (cache c))) as [Hfull|Hroom].
  - destruct (cache c) as [|[k0 i0] m] eqn:Ec; simpl in *; [lia|].
    rewrite String.eqb_refl.
    pose proof (Map_set_length_le V key item m). lia.
  - pose proof (Map_set_length_le V key item (cache c)). lia.
Qed.

Lemma step_size_le c o :
  (1 <= maxSize c)%nat ->
  (Map_size (cache c) <= maxSize c)%nat ->
  (Map_size (cache (step c o)) <= maxSize c)%nat.
Proof.
  intros Hpos Hle. destruct o as [t key|t t' key v|t key|key|]; simpl.
  - pose proof (get_size_le c t key). lia.
  - now apply set_size_le.
  - rewrite has_get. pose proof (get_size_le c t key). lia.
  - pose proof (Map_delete_length_le V key (cache c)).
    unfold Map_size in *. lia.
  - unfold Map_size. simpl. lia.
Qed.

Lemma run_size_le ops c :
  (1 <= maxSize c)%nat ->
  (Map_size (cache c) <= maxSize c)%nat ->
  (Map_size (cache (run ops c)) <= maxSize c)%nat.
Proof.
  revert c. induction ops as [|o ops IH]; intros c Hpos Hle; simpl; [assumption|].
  rewrite <- (step_maxSize c o).
  apply IH; rewrite step_maxSize; [assumption|].
  now apply step_size_le.
Qed.

Lemma run_maxSize ops c : maxSize (run ops c) = maxSize c.
Proof.
  revert c. induction ops as [|o ops IH]; intros c; simpl; [reflexivity|].
  now rewrite IH, step_maxSize.
Qed.

(** Every operation keeps the keys of the map distinct. *)
Lemma step_wf c o : wf c -> wf (step c o).
Proof.
  unfold wf, keys. intros H.
  destruct o as [t key|t t' key v|t key|key|]; simpl.
  - rewrite get_cache.
    destruct (Map_get key (cache c)) as [item|]; [|assumption].
    destruct (expiry item <? t).
    + now apply Map_delete_NoDup.
    + now apply Map_set_NoDup, Map_delete_NoDup.
  - apply Map_set_NoDup.
    destruct (maxSize c <=? Map_size (cache c))%nat; [|assumption].
    destruct (Map_first_key (cache c)); [|assumption].
    now apply Map_delete_NoDup.
  - rewrite has_get, get_cache.
    destruct (Map_get key (cache c)) as [item|]; [|assumption].
    destruct (expiry item <? t).
    + now apply Map_delete_NoDup.
    + now apply Map_set_NoDup, Map_delete_NoDup.
  - now apply Map_delete_NoDup.
  - constructor.
Qed.

Lemma run_wf ops c : wf c -> wf (run ops c).
Proof.
  revert c. induction ops as [|o ops IH]; intros c H; simpl; [assumption|].
  now apply IH, step_wf.
Qed.

Lemma new_wf maxSize ttlMinutes : wf (new V maxSize ttlMinutes).
Proof. constructor. Qed.

End CacheFacts.

End CacheFacts.

Module JsFacts.

Local Open Scope Q_scope.

(** ** Rounding to a double *)

Lemma round_half_even_near (y : Q) :
  - (1 # 2) <= inject_Z (round_half_even y) - y <= 1 # 2.
Proof.
  unfold round_half_even.
  pose proof (Qfloor_le y) as Hlo. pose proof (Qlt_floor y) as Hhi.
  rewrite inject_Z_plus in Hhi. change (inject_Z 1) with 1 in Hhi.
  destruct (Qcompare (y - inject_Z (Qfloor y)) (1 # 2)) eqn:E.
  - apply Qeq_alt in E. destruct (Z.even (Qfloor y)).
    + lra.
    + rewrite inject_Z_plus. change (inject_Z 1) with 1. lra.
  - apply Qlt_alt in E. lra.
  - apply Qgt_alt in E. rewrite inject_Z_plus. change (inject_Z 1) with 1.
    lra.
Qed.

Lemma pow2_pos (e : Z) : 0 < pow2 e.
Proof. apply Qpower_0_lt. reflexivity. Qed.

Lemma pow2_plus (n m : Z) : pow2 (n + m) == pow2 n * pow2 m.
Proof. apply Qpower_plus. discriminate. Qed.

Lemma pow2_minus (n m : Z) : pow2 (n - m) == pow2 n / pow2 m.
Proof. apply Qpower_minus. discriminate. Qed.

Lemma pow2_inject (n : Z) : (0 <= n)%Z -> inject_Z (2 ^ n) == pow2 n.
Proof.
  intros H. unfold pow2. rewrite Zpower_Qpower by assumption. reflexivity.
Qed.

Lemma pow2_log2_le (p : Z) : (0 < p)%Z -> pow2 (Z.log2 p) <= inject_Z p.
Proof.
  intros Hp. rewrite <- pow2_inject by apply Z.log2_nonneg.
  rewrite <- Zle_Qle. apply Z.log2_spec. exact Hp.
Qed.

Lemma pow2_log2_gt (q : Z) : (0 < q)%Z -> inject_Z q <= pow2 (Z.log2 q + 1).
Proof.
  intros Hq. pose proof (Z.log2_nonneg q).
  rewrite <- pow2_inject by lia.
  rewrite <- Zle_Qle. pose proof (Z.log2_spec q Hq). unfold Z.succ in *. lia.
Qed.

(** The spacing [2^e] chosen for a normal [x] is at most [x / 2^52]: the
    significand [x / 2^e] has its 53 bits. *)
Lemma exponent64_scale (x : Q) :
  0 < x -> pow2 (-1022) <= x ->
  pow2 52 * pow2 (exponent64 x) <= x.
Proof.
  intros Hx Hn. unfold exponent64.
  set (a := Z.log2 (Qnum x)). set (b := Z.log2 (Z.pos (Qden x))).
  set (e := if Qle_bool (pow2 52) (x / pow2 (a - b - 52))
            then (a - b - 52)%Z else (a - b - 52 - 1)%Z).
  assert (He : pow2 52 * pow2 e <= x).
  { subst e. destruct (Qle_bool (pow2 52) (x / pow2 (a - b - 52))) eqn:T.
    - apply Qle_bool_iff in T.
      pose proof (pow2_pos (a - b - 52)) as Hs.
      set (s := pow2 (a - b - 52)) in *.
      assert (E : x == x / s * s) by (field; lra).
      rewrite E. apply Qmult_le_compat_r; lra.
    - clear T.
      assert (Hp : (0 < Qnum x)%Z).
      { destruct x as [p q]. unfold Qlt in Hx. simpl in *. lia. }
      pose proof (pow2_log2_le (Qnum x) Hp) as HA. fold a in HA.
      pose proof (pow2_log2_gt (Z.pos (Qden x)) eq_refl) as HB. fold b in HB.
      assert (Hxe : x == inject_Z (Qnum x) / inject_Z (Z.pos (Qden x))).
      { destruct x as [p q]. simpl. apply Qmake_Qdiv. }
      replace (a - b - 52 - 1)%Z with (a - (b + 1) - 52)%Z by lia.
      rewrite !pow2_minus.
      pose proof (pow2_pos a) as Ha. pose proof (pow2_pos (b + 1)) as Hb.
      pose proof (pow2_pos 52) as Hc.
      set (A := pow2 a) in *. set (B := pow2 (b + 1)) in *.
      set (C := pow2 52) in *.
      assert (Hq : 0 < inject_Z (Z.pos (Qden x))).
      { rewrite <- (Zlt_Qlt 0). reflexivity. }
      set (P := inject_Z (Qnum x)) in *.
      set (K := inject_Z (Z.pos (Qden x))) in *.
      assert (E : C * (A / B / C) == A / B) by (field; split; lra).
      rewrite E. apply Qle_shift_div_r; [exact Hb|].
      rewrite Hxe.
      assert (E2 : P / K * B == P * (B / K)) by (field; lra).
      rewrite E2.
      assert (1 <= B / K) by (apply Qle_shift_div_l; lra).
      nra. }
  destruct (Z.max_spec e (-1074)) as [[_ ->]|[_ ->]].
  - rewrite <- pow2_plus. exact Hn.
  - exact He.
Qed.

(** Half the distance between 1 and the next double. *)
Definition eps64 : Q := pow2 (-53).

Lemma eps64_half : eps64 * pow2 52 == 1 # 2.
Proof. reflexivity. Qed.

(** Rounding a normal [x] moves it by at most [x * 2^-53]. *)
Lemma round64_pos_error (x : Q) :
  0 < x -> pow2 (-1022) <= x ->
  - (x * eps64) <= round64_pos x - x <= x * eps64.
Proof.
  intros Hx Hn. unfold round64_pos.
  pose proof (exponent64_scale x Hx Hn) as Hs.
  set (s := pow2 (exponent64 x)) in *.
  assert (Hspos : 0 < s) by apply pow2_pos.
  pose proof (round_half_even_near (x / s)) as Hr.
  set (m := inject_Z (round_half_even (x / s))) in *.
  assert (E : m * s - x == (m - x / s) * s) by (field; lra).
  rewrite E. set (d := m - x / s) in *.
  pose proof eps64_half as Hh.
  assert (He : 0 < eps64) by apply pow2_pos.
  set (C := pow2 52) in *. set (u := eps64) in *.
  assert (Hsx : s * (1 # 2) <= x * u).
  { rewrite <- Hh.
    assert (E3 : s * (u * C) == u * (C * s)) by ring. rewrite E3.
    rewrite (Qmult_comm x u). apply Qmult_le_l; assumption. }
  nra.
Qed.

Lemma round64_error (x : Q) :
  0 <= x -> (0 < x -> pow2 (-1022) <= x) ->
  - (x * eps64) <= round64 x - x <= x * eps64 /\ 0 <= round64 x.
Proof.
  intros Hx Hn. unfold round64.
  destruct (Qcompare x 0) eqn:E.
  - apply Qeq_alt in E. rewrite E. split; [split|]; lra.
  - apply Qlt_alt in E. lra.
  - apply Qgt_alt in E.
    pose proof (round64_pos_error x E (Hn E)) as H.
    assert (0 < eps64) by apply pow2_pos.
    assert (eps64 <= 1) by (unfold eps64, pow2; discriminate).
    split; [exact H|]. nra.
Qed.

Lemma round64_zero (x : Q) : x == 0 -> round64 x = 0.
Proof.
  intros E. unfold round64. apply Qeq_alt in E. rewrite E. reflexivity.
Qed.

(** ** [Math.round] and the percentage of [getStats] *)

Lemma Math_round_bounds (x : Q) :
  x - (1 # 2) < inject_Z (Math_round x) <= x + (1 # 2).
Proof.
  unfold Math_round.
  pose proof (Qfloor_le (x + (1 # 2))).
  pose proof (Qlt_floor (x + (1 # 2))) as Hhi.
  rewrite inject_Z_plus in Hhi. change (inject_Z 1) with 1 in Hhi. lra.
Qed.

(** The double [(h / n) * 100] differs from the exact percentage by
    less than [2.5 * 10^-14], for counters up to [10^11]. *)
Lemma percentage_error (h n : nat) :
  (0 < h <= n)%nat -> (Z.of_nat n <= 10 ^ 11)%Z ->
  let x := LRUCache.Q_of_nat h / LRUCache.Q_of_nat n in
  let v := fmul (fdiv (LRUCache.Q_of_nat h) (LRUCache.Q_of_nat n)) 100 in
  0 <= v /\ - (25 # 10 ^ 15) <= v - x * 100 <= 25 # 10 ^ 15.
Proof.
  intros [Hh Hhn] Hn x v.
  assert (HN : 0 < LRUCache.Q_of_nat n).
  { unfold LRUCache.Q_of_nat. rewrite <- (Zlt_Qlt 0). lia. }
  assert (HH : 1 <= LRUCache.Q_of_nat h).
  { unfold LRUCache.Q_of_nat. rewrite <- (Zle_Qle 1). lia. }
  assert (HHN : LRUCache.Q_of_nat h <= LRUCache.Q_of_nat n).
  { unfold LRUCache.Q_of_nat. rewrite <- Zle_Qle. lia. }
  assert (HNb : LRUCache.Q_of_nat n <= inject_Z (10 ^ 11)).
  { unfold LRUCache.Q_of_nat. rewrite <- Zle_Qle. exact Hn. }
  assert (Hx1 : x <= 1).
  { subst x. apply Qle_shift_div_r; lra. }
  assert (Hx0 : 1 # 10 ^ 11 <= x).
  { subst x. apply Qle_shift_div_l; [exact HN|].
    change (inject_Z (10 ^ 11)) with (100000000000 # 1) in HNb.
    change (1 # 10 ^ 11) with (1 # 100000000000). nra. }
  assert (Htiny : pow2 (-1022) <= 1 # 10 ^ 12).
  { unfold pow2. vm_compute. discriminate. }
  assert (Hu : eps64 <= 12 # 10 ^ 17).
  { unfold eps64, pow2. vm_compute. discriminate. }
  assert (Hu0 : 0 < eps64) by apply pow2_pos.
  change (1 # 10 ^ 11) with (1 # 100000000000) in Hx0.
  change (1 # 10 ^ 12) with (1 # 1000000000000) in Htiny.
  change (12 # 10 ^ 17) with (12 # 100000000000000000) in Hu.
  destruct (round64_error x) as [E1 P1]; [lra | intros _; lra |].
  set (v1 := fdiv (LRUCache.Q_of_nat h) (LRUCache.Q_of_nat n)) in *.
  change (round64 x) with v1 in E1, P1.
  set (u := eps64) in *.
  assert (Hxu : x * u <= x * (12 # 100000000000000000)).
  { apply Qmult_le_l; lra. }
  assert (Hxu' : x * (12 # 100000000000000000) <= 12 # 100000000000000000).
  { rewrite <- (Qmult_1_l (12 # 100000000000000000)) at 2.
    apply Qmult_le_compat_r; [exact Hx1 | discriminate]. }
  assert (Hv1 : x * (1 # 2) <= v1) by lra.
  destruct (round64_error (v1 * 100)) as [E2 P2]; [lra | intros _; lra |].
  change (round64 (v1 * 100)) with v in E2, P2. fold u in E2.
  split; [exact P2|].
  change (25 # 10 ^ 15) with (25 # 1000000000000000).
  assert (Hv1b : v1 <= 1 + (12 # 100000000000000000)) by lra.
  assert (Hyu : v1 * 100 * u <= v1 * 100 * (12 # 100000000000000000)).
  { apply Qmult_le_l; lra. }
  assert (Hyu' : v1 * 100 * (12 # 100000000000000000)
                 <= (1 + (12 # 100000000000000000)) * 100
                    * (12 # 100000000000000000)).
  { apply Qmult_le_compat_r; [|discriminate]. lra. }
  assert (Hc : (1 + (12 # 100000000000000000)) * 100
               * (12 # 100000000000000000)
               <= 125 # 10000000000000000).
  { vm_compute. discriminate. }
  split; lra.
Qed.

(** The percentage that [getStats] prints has the digits of an integer
    [d] nearest to [10000 * h / n]: with up to [10^11] lookups the
    rounding of the two operations is too small to move [d] past it,
    but it decides which neighbour is printed when [10000 * h / n] lies
    halfway between two integers. *)
Lemma percentage_nearest (h n : nat) :
  (0 < n)%nat -> (h <= n)%nat -> (Z.of_nat n <= 10 ^ 11)%Z ->
  let v := fmul (fdiv (LRUCache.Q_of_nat h) (LRUCache.Q_of_nat n)) 100 in
  let d := toFixed_digits 2 v in
  Qle_bool 0 v = true /\
  (- Z.of_nat n
   <= 2 * (d * Z.of_nat n - 10000 * Z.of_nat h) <= Z.of_nat n)%Z.
Proof.
  intros Hn Hhn Hb v d.
  destruct h as [|h'].
  - assert (Ev : v = 0).
    { subst v. unfold fmul, fdiv.
      assert (E0 : LRUCache.Q_of_nat 0 / LRUCache.Q_of_nat n == 0).
      { unfold LRUCache.Q_of_nat. simpl. unfold Qdiv. ring. }
      rewrite (round64_zero _ E0). apply round64_zero. ring. }
    subst d. rewrite Ev. split; [reflexivity|].
    change (toFixed_digits 2 0) with 0%Z. lia.
  - set (h := S h') in *.
    destruct (percentage_error h n) as [Hv He]; [subst h; lia | exact Hb |].
    fold v in Hv, He.
    split; [apply Qle_bool_iff; exact Hv|].
    pose proof (Math_round_bounds (v * inject_Z (10 ^ Z.of_nat 2))) as Hd.
    fold (toFixed_digits 2 v) in Hd. fold d in Hd.
    change (inject_Z (10 ^ Z.of_nat 2)) with 100 in Hd.
    assert (HN : 0 < LRUCache.Q_of_nat n).
    { unfold LRUCache.Q_of_nat. rewrite <- (Zlt_Qlt 0). lia. }
    assert (HNb : LRUCache.Q_of_nat n <= 100000000000).
    { unfold LRUCache.Q_of_nat. change 100000000000 with (inject_Z (10 ^ 11)).
      rewrite <- Zle_Qle. exact Hb. }
    set (N := LRUCache.Q_of_nat n) in *. set (H := LRUCache.Q_of_nat h) in *.
    set (D := inject_Z d) in *.
    change (25 # 10 ^ 15) with (25 # 1000000000000000) in He.
    assert (Ex : H / N * N == H) by (field; lra).
    set (x := H / N) in *.
    assert (B1 : 2 * (D * N - 10000 * H) < N + 1).
    { rewrite <- Ex. nra. }
    assert (B2 : - N - 1 < 2 * (D * N - 10000 * H)).
    { rewrite <- Ex. nra. }
    assert (Z1 : (2 * (d * Z.of_nat n - 10000 * Z.of_nat h)
                  < Z.of_nat n + 1)%Z).
    { rewrite Zlt_Qlt. unfold Z.sub.
      rewrite inject_Z_plus, inject_Z_mult, inject_Z_plus, inject_Z_opp,
              !inject_Z_mult.
      exact B1. }
    assert (Z2 : (- Z.of_nat n - 1
                  < 2 * (d * Z.of_nat n - 10000 * Z.of_nat h))%Z).
    { rewrite Zlt_Qlt. unfold Z.sub.
      rewrite inject_Z_plus, inject_Z_opp, inject_Z_mult, inject_Z_plus,
              inject_Z_opp, !inject_Z_mult.
      exact B2. }
    lia.
Qed.

Lemma percentage_toFixed (h n : nat) :
  (0 < n)%nat -> (h <= n)%nat -> (Z.of_nat n <= 10 ^ 11)%Z ->
  exists d : Z,
    toFixed 2 (fmul (fdiv (LRUCache.Q_of_nat h) (LRUCache.Q_of_nat n)) 100)
      = insert_point 2 (string_of_Z d) /\
    (- Z.of_nat n
     <= 2 * (d * Z.of_nat n - 10000 * Z.of_nat h) <= Z.of_nat n)%Z.
Proof.
  intros Hn Hhn Hb.
  destruct (percentage_nearest h n Hn Hhn Hb) as [Hpos Hd].
  unfold toFixed. rewrite Hpos. eexists. split; [reflexivity | exact Hd].
Qed.

End JsFacts.

Module CacheClaims.

Import LRUCache CacheFacts Scenario.

Section Claims.

Variable V : Type.
Implicit Types (c : LRUCache.t V) (ops : list (op V)).

(** C4 (as amended).  For a cache built with [maxSize >= 1] and any
    sequence of [get], [set], [has], [delete] and [clear], the number
    of stored entries never exceeds [maxSize]; and [get] never returns
    a stored value once the current time is past the entry's expiry:
    a value it returns belongs to an entry whose expiry is not before
    now. *)
Theorem size_bounded_and_expired_not_returned
        (maxSize : nat) (ttlMinutes : Z) ops :
  (1 <= maxSize)%nat ->
  let c := run ops (new V maxSize ttlMinutes) in
  (Map_size (cache c) <= maxSize)%nat /\
  (forall now key item,
      Map_get key (cache c) = Some item ->
      expiry item < now ->
      fst (get c now key) = None) /\
  (forall now key v,
      fst (get c now key) = Some v ->
      exists item,
        Map_get key (cache c) = Some item /\
        value item = v /\ now <= expiry item).
Proof.
  intros Hpos c. split; [|split].
  - subst c. apply (run_size_le V ops (new V maxSize ttlMinutes) Hpos).
    simpl. lia.
  - intros t key item Hget Hexp. unfold get. rewrite Hget.
    destruct (Z.ltb_spec (expiry item) t); [reflexivity | lia].
  - intros t key v. unfold get.
    destruct (Map_get key (cache c)) as [item|]; [|discriminate].
    destruct (Z.ltb_spec (expiry item) t); [discriminate|].
    simpl. intros [= <-]. now exists item.
Qed.

(** C5.  [get] and [has] move the entry they find to the end of the
    access order; and [set] of a fresh key on a cache whose size is
    [maxSize] removes exactly the entry at the front of that order,
    keeps the others as they are, and adds the new entry at the end
    with [expiry = now + ttl]. *)
Theorem set_at_capacity_evicts_lru c :
  wf c ->
  (forall now key item,
      Map_get key (cache c) = Some item ->
      now <= expiry item ->
      cache (snd (get c now key)) =
        (Map_delete key (cache c) ++ [(key, item)])%list /\
      cache (snd (has c now key)) =
        (Map_delete key (cache c) ++ [(key, item)])%list) /\
  (forall now now' key v,
      Map_get key (cache c) = None ->
      Map_size (cache c) = maxSize c ->
      cache (set c now now' key v) =
        (tl (cache c) ++ [(key, mkItem v (now + ttl c) now')])%list).
Proof.
  intros Hwf. split.
  - intros t key item Hget Hexp.
    rewrite has_get, get_cache, Hget.
    destruct (Z.ltb_spec (expiry item) t); [lia|].
    rewrite Map_set_fresh by now apply Map_get_delete_same.
    now split.
  - intros t t' key v Hfresh Hfull. unfold set. simpl.
    rewrite Hfull, Nat.leb_refl.
    destruct (cache c) as [|[k0 i0] m]; simpl in *.
    + reflexivity.
    + rewrite String.eqb_refl.
      destruct (String.eqb key k0); [discriminate|].
      now apply Map_set_fresh.
Qed.

(** The counters after a [get] or a [has]: one of the two has grown
    by one. *)
Lemma get_counts c now key :
  let c' := snd (get c now key) in
  (hits c' = S (hits c) /\ misses c' = misses c) \/
  (hits c' = hits c /\ misses c' = S (misses c)).
Proof.
  unfold get. destruct (Map_get key (cache c)) as [item|]; simpl; [|tauto].
  destruct (expiry item <? now); simpl; tauto.
Qed.

Lemma run_counts ops c :
  (hits (run ops c) + misses (run ops c))%nat =
  fold_left (count_lookup V) ops (hits c + misses c)%nat.
Proof.
  revert c. induction ops as [|o ops IH]; intros c; simpl; [reflexivity|].
  rewrite IH. f_equal.
  destruct o as [t key|t t' key v|t key|key|]; simpl; try reflexivity.
  - destruct (get_counts c t key) as [[-> ->]|[-> ->]]; lia.
  - rewrite has_get.
    destruct (get_counts c t key) as [[-> ->]|[-> ->]]; lia.
Qed.


(** C10.  [set] of a key that is already present, on a cache whose
    size is [maxSize], still removes the entry at the front of the
    access order.  When that entry has another key, it is gone, the
    key written keeps its place with the new entry, and the size is
    [maxSize - 1]; when it is the key written itself, the new entry
    goes to the end and the size stays [maxSize]. *)
Theorem set_present_key_at_capacity_evicts
        c now now' key v old firstKey firstItem rest :
  wf c ->
  Map_size (cache c) = maxSize c ->
  Map_get key (cache c) = Some old ->
  cache c = (firstKey, firstItem) :: rest ->
  let item := mkItem v (now + ttl c) now' in
  let c' := set c now now' key v in
  cache c' = Map_set key item rest /\
  (firstKey <> key ->
     Map_get firstKey (cache c') = None /\
     Map_get key (cache c') = Some item /\
     S (Map_size (cache c')) = maxSize c) /\
  (firstKey = key ->
     cache c' = (rest ++ [(key, item)])%list /\
     Map_size (cache c') = maxSize c).
Proof.
  intros Hwf Hfull Hget Hc item c'.
  assert (Hc' : cache c' = Map_set key item rest).
  { subst c'. unfold set. simpl. rewrite Hfull, Nat.leb_refl, Hc. simpl.
    now rewrite String.eqb_refl. }
  unfold wf, keys in Hwf. rewrite Hc in Hwf. simpl in Hwf.
  inversion Hwf as [|? ? Hnin Hnd]; subst.
  unfold Map_size in *. rewrite Hc in Hfull, Hget. simpl in Hfull, Hget.
  split; [exact Hc'|]. rewrite Hc'. split.
  - intros Hne.
    destruct (String.eqb_spec key firstKey) as [->|_]; [contradiction|].
    split; [|split].
    + apply Map_get_None_iff. intros I.
      destruct (Map_set_keys V key item rest _ I) as [E|I'];
        [congruence | contradiction].
    + apply Map_get_set_same.
    + rewrite (Map_set_present_length V key item old rest Hget). exact Hfull.
  - intros ->. rewrite String.eqb_refl in Hget.
    assert (Hfresh : Map_get key rest = None) by now apply Map_get_None_iff.
    rewrite (Map_set_fresh V key item rest Hfresh).
    split; [reflexivity|]. rewrite length_app. simpl. lia.
Qed.

End Claims.

(** ** Concrete caches *)

Lemma size_bounded_and_expired_not_returned_witness :
  let c := run two_sets (new unit 1 60) in
  (Map_size (cache c) <= 1)%nat /\
  (forall now key item,
      Map_get key (cache c) = Some item ->
      expiry item < now ->
      fst (get c now key) = None) /\
  (forall now key v,
      fst (get c now key) = Some v ->
      exists item,
        Map_get key (cache c) = Some item /\
        value item = v /\ now <= expiry item).
Proof.
  apply (size_bounded_and_expired_not_returned unit 1 60 two_sets). lia.
Defined.

(** C4, as stated, fails for a cache built with [maxSize = 0]: [set]
    finds nothing to evict and stores the entry all the same. *)
Lemma size_bound_fails_without_capacity :
  ~ (forall (maxSize : nat) (ttlMinutes : Z) (ops : list (op unit)),
        (Map_size (cache (run ops (new unit maxSize ttlMinutes)))
         <= maxSize)%nat).
Proof.
  intros H. specialize (H 0%nat 60 [OpSet 0 0 "a" tt]).
  vm_compute in H. lia.
Qed.


(** A percentage that lies halfway between two hundredths: 23 hits in
    160 lookups are 14.375 %; the double is just below it, and
    [getStats] prints the lower neighbour. *)
Lemma hitRate_on_a_tie :
  let ops := (OpSet 0 0 "a" tt :: repeat (OpGet 1 "a") 23
              ++ repeat (OpGet 1 "b") 137)%list in
  let s := getStats (run ops (new unit 2 60)) in
  stat_hits s = 23%nat /\ stat_misses s = 137%nat /\
  stat_hitRate s = "14.37%".
Proof. vm_compute. repeat split. Qed.

Lemma full2_wf : wf full2.
Proof. apply run_wf, new_wf. Qed.

Lemma set_at_capacity_evicts_lru_witness :
  cache (snd (get full2 7 "a")) =
    [("b", mkItem tt 3600005 5); ("a", mkItem tt 3600000 0)] /\
  cache (set full2 9 9 "c" tt) =
    [("b", mkItem tt 3600005 5); ("c", mkItem tt 3600009 9)].
Proof.
  destruct (set_at_capacity_evicts_lru unit full2 full2_wf) as [Hget Hset].
  split.
  - apply (Hget 7 "a" (mkItem tt 3600000 0)); [reflexivity | simpl; lia].
  - apply (Hset 9 9 "c" tt); reflexivity.
Defined.

Lemma set_present_key_at_capacity_evicts_witness :
  let item := mkItem tt (9 + ttl full2) 9 in
  let c' := set full2 9 9 "b" tt in
  cache c' = Map_set "b" item [("b", mkItem tt 3600005 5)] /\
  ("a" <> "b" ->
     Map_get "a" (cache c') = None /\
     Map_get "b" (cache c') = Some item /\
     S (Map_size (cache c')) = maxSize full2) /\
  ("a" = "b" ->
     cache c' = ([("b", mkItem tt 3600005 5)] ++ [("b", item)])%list /\
     Map_size (cache c') = maxSize full2).
Proof.
  apply (set_present_key_at_capacity_evicts
           unit full2 9 9 "b" tt (mkItem tt 3600005 5)
           "a" (mkItem tt 3600000 0) [("b", mkItem tt 3600005 5)]).
  - exact full2_wf.
  - reflexivity.
  - reflexivity.
  - reflexivity.
Defined.

(** ** [getSizeBytes] *)

Section SizeBytes.

Variable V : Type.
Variable JSON_stringify : V -> stringified.

Lemma sample_loop_returns entries total size count :
  exists size', sample_loop V JSON_stringify entries total size count
                = Ok size'.
Proof.
  revert size count.
  induction entries as [|[key item] rest IH]; intros size count; simpl.
  - now exists size.
  - destruct (count <? maxSampleSize)%nat; [|eauto].
    destruct (stringify_length V JSON_stringify (value item)); simpl;
      apply IH.
Qed.

(** The sampling [getSizeBytes] never throws: it returns a number on
    every cache, whatever [JSON.stringify] does on the values. *)
Lemma getSizeBytes_returns (c : LRUCache.t V) now now' :
  exists n, fst (getSizeBytes JSON_stringify c now now') = Ok n.
Proof.
  unfold getSizeBytes.
  destruct (truthy_number (_cachedSize c) && _) eqn:Hfresh;
    destruct (_cachedSize c) as [cached|] eqn:Hc; simpl; eauto;
    destruct (sample_loop_returns (cache c) (List.length (cache c)) 0%Q 0)
      as [size ->]; simpl; eauto.
Qed.

(** An entry whose value cannot be serialized counts for the length
    of its key and a fixed 1000. *)
Lemma sample_loop_fallback key item rest total size count :
  (count < maxSampleSize)%nat ->
  (forall s, JSON_stringify (value item) <> JsonText s) ->
  sample_loop V JSON_stringify ((key, item) :: rest) total size count =
  sample_loop V JSON_stringify rest total
              (size + Q_of_len key * 2 + 1000)%Q (S count).
Proof.
  intros Hc Hs. simpl.
  destruct (Nat.ltb_spec count maxSampleSize); [|lia].
  unfold stringify_length.
  destruct (JSON_stringify (value item)) as [s| |e]; simpl; try reflexivity.
  now destruct (Hs s).
Qed.

End SizeBytes.

(** C7.  On a cache holding a value with a circular reference, the
    [getSizeBytes] of the copy of [cache.js] that has no [try] throws
    the [TypeError] of [JSON.stringify]; the sampling copy returns
    [2 * 5 + 1000] there. *)
Theorem getSizeBytes_unguarded_throws :
  getSizeBytes_unguarded stringify_example one_circular = Throw circular /\
  fst (getSizeBytes stringify_example one_circular 1 1) = Ok 1010.
Proof. split; reflexivity. Qed.

End CacheClaims.

(* ================================================================== *)
(** * Properties of the rate limiter *)
(* ================================================================== *)

Module LimiterFacts.

Import RateLimiter.

Lemma cleanupExpired_eq s :
  _cleanupExpired s =
  (Ok (now (tick (world s))),
   mkSt (purge (now (tick (world s))) (limiter s)) (tick (world s))).
Proof. reflexivity. Qed.

Lemma purge_length t l :
  (List.length (requests (purge t l)) <= List.length (requests l))%nat.
Proof. apply filter_length_le. Qed.

(** Within the bound, [cleanup] is the purge alone: the test of the
    hard cap fails. *)
Lemma cleanup_eq s :
  (List.length (requests (limiter s)) <= maxRequests (limiter s))%nat ->
  cleanup s =
  (Ok tt, mkSt (purge (now (tick (world s))) (limiter s)) (tick (world s))).
Proof.
  intros Hle. unfold cleanup, mbind. rewrite cleanupExpired_eq.
  unfold get_limiter. cbn [limiter].
  pose proof (purge_length (now (tick (world s))) (limiter s)) as Hp.
  destruct (Z.ltb_spec
              (Z.of_nat (maxRequests (purge (now (tick (world s))) (limiter s))) * 10)
              (Z.of_nat (List.length
                 (requests (purge (now (tick (world s))) (limiter s))))))
    as [Hcap|_]; [|reflexivity].
  simpl in Hcap, Hp. lia.
Qed.

Lemma acquire_round r d s :
  (List.length (requests (limiter s)) <= maxRequests (limiter s))%nat ->
  acquire_from (S r) d s =
  let w1 := tick (world s) in
  let l1 := purge (now w1) (limiter s) in
  if (maxRequests l1 <=? List.length (requests l1))%nat
  then acquire_from r (d + 1) (round_wait l1 w1)
  else (Ok tt, round_push l1 w1).
Proof.
  intros Hle. cbn [acquire_from]. cbn [negb CONFIG.FEATURES.ENABLE_RATE_LIMITING].
  unfold mbind at 1. rewrite (cleanup_eq s Hle).
  unfold mbind at 1. unfold get_limiter at 1. cbn [limiter].
  cbv zeta.
  destruct (maxRequests (purge (now (tick (world s))) (limiter s)) <=?
            List.length (requests (purge (now (tick (world s))) (limiter s))))%nat;
    reflexivity.
Qed.

(** ** The bound on the list of timestamps *)

Lemma acquire_from_bounded r : forall d s,
  bounded s -> never_capped s ->
  let s' := snd (acquire_from r d s) in
  bounded s' /\ never_capped s' /\ same_config s s'.
Proof.
  induction r as [|r IH]; intros d s Hb Hn.
  - simpl. repeat split; try assumption.
    unfold never_capped in *. simpl. intros [E|I]; [discriminate|auto].
  - rewrite (acquire_round r d s Hb). cbv zeta.
    set (w1 := tick (world s)). set (l1 := purge (now w1) (limiter s)).
    pose proof (purge_length (now w1) (limiter s)) as Hp. fold l1 in Hp.
    destruct (Nat.leb_spec (maxRequests l1) (List.length (requests l1)))
      as [Hfull|Hroom].
    + destruct (IH (d + 1) (round_wait l1 w1)) as (Hb' & Hn' & Hc').
      * unfold bounded in *. simpl. subst l1. simpl in *. lia.
      * unfold never_capped in *. simpl.
        intros [E|[E|I]]; try discriminate. auto.
      * split; [exact Hb'|]. split; [exact Hn'|].
        destruct Hc' as [H1 H2]. split; [rewrite H1 | rewrite H2]; reflexivity.
    + simpl. repeat split.
      * unfold bounded. simpl. rewrite length_app. simpl.
        subst l1. simpl in *. lia.
      * exact Hn.
Qed.

Lemma step_bounded s o :
  bounded s -> never_capped s ->
  bounded (step s o) /\ never_capped (step s o) /\ same_config s (step s o).
Proof.
  intros Hb Hn. destruct o.
  - apply acquire_from_bounded; assumption.
  - unfold bounded, never_capped, same_config in *. simpl.
    match goal with
    | |- context [filter ?f ?l] => pose proof (filter_length_le f l)
    end.
    repeat split; try assumption. lia.
  - unfold bounded, never_capped, same_config in *. simpl.
    match goal with
    | |- context [filter ?f ?l] => pose proof (filter_length_le f l)
    end.
    repeat split; try assumption. lia.
  - unfold bounded, never_capped, same_config in *. simpl.
    repeat split; try assumption. lia.
Qed.

Lemma run_bounded ops : forall s,
  bounded s -> never_capped s ->
  bounded (run ops s) /\ never_capped (run ops s) /\ same_config s (run ops s).
Proof.
  induction ops as [|o ops IH]; intros s Hb Hn; simpl.
  - repeat split; assumption.
  - destruct (step_bounded s o Hb Hn) as (Hb' & Hn' & Hc1 & Hc2).
    destruct (IH (step s o) Hb' Hn') as (Hb'' & Hn'' & Hc1' & Hc2').
    repeat split; try assumption; congruence.
Qed.

(** C9.  For every sequence of [acquire], [canRequest], [getStatus] and
    [reset] calls on a new limiter, whatever the clock does, the list
    of recorded timestamps holds at most [maxRequests] entries after
    each call; and the hard cap of [cleanup()] has never been applied
    (its warning is not in the trace). *)
Theorem requests_bounded_cap_unreachable
        (maxRequests : nat) (windowMs t0 : Z) (drift : list Z) ops :
  let s := run ops (start maxRequests windowMs t0 drift) in
  (List.length (requests (limiter s)) <= maxRequests)%nat /\
  ~ In EvWarnCapped (trace (world s)).
Proof.
  intros s.
  destruct (run_bounded ops (start maxRequests windowMs t0 drift))
    as (Hb & Hn & Hc & _).
  - unfold bounded. simpl. lia.
  - intros I. exact I.
  - split; [|exact Hn]. unfold bounded in Hb. fold s in Hb, Hc.
    simpl in Hc. lia.
Qed.

(** ** The sliding window *)

Lemma filter_all {A} (f : A -> bool) (l : list A) :
  Forall (fun x => f x = true) l -> filter f l = l.
Proof.
  induction 1 as [|x l Hx _ IH]; simpl; [reflexivity|].
  now rewrite Hx, IH.
Qed.

Lemma hd_nonneg (dr : list Z) : Forall (Z.le 0) dr -> 0 <= hd 0 dr.
Proof. destruct 1; simpl; lia. Qed.

Lemma tl_nonneg (dr : list Z) : Forall (Z.le 0) dr -> Forall (Z.le 0) (tl dr).
Proof. destruct 1; simpl; auto. Qed.

Section Window.

Variables (N : nat) (W t1 : Z).
Hypothesis N_positive : (1 <= N)%nat.

Lemma acquire_step j s :
  basic N W s -> track W t1 j s ->
  exists s',
    acquire s = (Ok tt, s') /\
    basic N W s' /\
    now (world s) <= now (world s') /\
    track W t1 (S j) s' /\
    ((N <= j)%nat -> first_expired W t1 s').
Proof.
  destruct s as [[N' W' rs] [t dr net tr]].
  intros (HN & HW & Hlen & Hdr) Htrack. simpl in HN, HW, Hlen, Hdr.
  subst N' W'.
  unfold acquire, MAX_RECURSION_DEPTH.
  rewrite acquire_round by exact Hlen.
  cbv zeta. unfold tick, purge. cbn [world limiter now drift network trace
                                     maxRequests windowMs requests].
  pose proof (hd_nonneg dr Hdr) as Hd1.
  pose proof (tl_nonneg dr Hdr) as Hdr1.
  pose proof (hd_nonneg _ Hdr1) as Hd2.
  pose proof (tl_nonneg _ Hdr1) as Hdr2.
  set (ta := t + hd 0 dr) in *.
  set (f := fun time => ta - time <? W).
  set (rs1 := filter f rs).
  assert (Hlen1 : (List.length rs1 <= List.length rs)%nat)
    by apply filter_length_le.
  (* What the purge at [ta] does to [t1], when it is still the head. *)
  assert (Hhead : forall rest,
             rs = t1 :: rest ->
             Forall (fun x => t1 <= x <= t) rs ->
             ta - t1 < W -> rs1 = rs).
  { intros rest _ Hall Hlt. apply filter_all.
    eapply Forall_impl; [|exact Hall].
    intros x Hx. cbv beta in Hx |- *. unfold f. apply Z.ltb_lt. lia. }
  destruct (Nat.leb_spec N (List.length rs1)) as [Hfull|Hroom].
  - (* no slot: wait, then a second round *)
    destruct rs1 as [|o r1] eqn:Ers1; [simpl in Hfull; lia|].
    rewrite acquire_round by (simpl in *; lia).
    cbv zeta. unfold round_wait, tick, purge, waitTime_of.
    cbn [world limiter now drift network trace
         maxRequests windowMs requests delay_of].
    pose proof (hd_nonneg _ Hdr2) as Hd3.
    pose proof (tl_nonneg _ Hdr2) as Hdr3.
    pose proof (hd_nonneg _ Hdr3) as Hd4.
    pose proof (tl_nonneg _ Hdr3) as Hdr4.
    set (tb := ta + hd 0 (tl dr)) in *.
    set (tc := tb + Z.max 0 (W - (tb - o)) + hd 0 (tl (tl dr))) in *.
    assert (Hdead : (tc - o <? W) = false) by (apply Z.ltb_ge; lia).
    cbn [filter]. rewrite Hdead.
    set (r2 := filter (fun time => tc - time <? W) r1).
    assert (Hlen2 : (List.length r2 <= List.length r1)%nat)
      by apply filter_length_le.
    simpl in Hfull, Hlen1.
    destruct (Nat.leb_spec N (List.length r2)) as [Hfull2|_]; [lia|].
    eexists. split; [reflexivity|].
    unfold round_push, tick, push.
    cbn [world limiter now drift network trace
         maxRequests windowMs requests].
    assert (Hexp : t1 + W <= tc + hd 0 (tl (tl (tl dr)))).
    { destruct Htrack as [([rest Hrs] & Hj & Hall)|Hexp].
      - simpl in Hrs, Hall. subst rs.
        destruct (Z.lt_ge_cases (ta - t1) W) as [Hlt|Hge]; [|lia].
        pose proof (Hhead rest eq_refl Hall Hlt) as E.
        injection E as Eo _. lia.
      - unfold first_expired in Hexp. simpl in Hexp. lia. }
    split; [|split; [|split]].
    + unfold basic. simpl. rewrite length_app. simpl.
      repeat split; try lia. exact Hdr4.
    + lia.
    + right. exact Hexp.
    + intros _. exact Hexp.
  - (* a free slot: record the time *)
    eexists. split; [reflexivity|].
    unfold round_push, tick, push.
    cbn [world limiter now drift network trace
         maxRequests windowMs requests].
    split; [|split; [|split]].
    + unfold basic. simpl. rewrite length_app. simpl.
      repeat split; try lia. exact Hdr2.
    + lia.
    + destruct Htrack as [([rest Hrs] & Hj & Hall)|Hexp].
      * simpl in Hrs, Hj, Hall.
        destruct (Z.lt_ge_cases (ta - t1) W) as [Hlt|Hge].
        -- left. pose proof (Hhead rest Hrs Hall Hlt) as E.
           unfold first_live.
           cbn [world limiter now requests]. rewrite E.
           split; [|split].
           ++ exists (rest ++ [ta + hd 0 (tl dr)])%list. now rewrite Hrs.
           ++ rewrite length_app. simpl. lia.
           ++ apply Forall_app. split.
              ** eapply Forall_impl; [|exact Hall]. simpl. intros x Hx. lia.
              ** constructor; [|constructor].
                 rewrite Hrs in Hall. inversion Hall; subst. lia.
        -- right. unfold first_expired. simpl. lia.
      * right. unfold first_expired in *. simpl in *. lia.
    + intros HNj.
      destruct Htrack as [([rest Hrs] & Hj & Hall)|Hexp].
      * simpl in Hrs, Hj, Hall.
        destruct (Z.lt_ge_cases (ta - t1) W) as [Hlt|Hge].
        -- pose proof (Hhead rest Hrs Hall Hlt) as E.
           rewrite E in Hroom. lia.
        -- unfold first_expired. simpl. lia.
      * unfold first_expired in *. simpl in *. lia.
Qed.

Lemma acquire_times_track k : forall j s,
  basic N W s -> track W t1 j s ->
  Forall (fun call => fst call = true) (acquire_times k s) /\
  ((j + k = S N)%nat -> (1 <= k)%nat ->
   t1 + W <= snd (nth (k - 1) (acquire_times k s) (false, 0))).
Proof.
  induction k as [|k IH]; intros j s Hb Ht.
  - split; [constructor | lia].
  - destruct (acquire_step j s Hb Ht) as (s' & Hs' & Hb' & _ & Ht' & Hlast).
    cbn [acquire_times]. rewrite Hs'.
    destruct (IH (S j) s' Hb' Ht') as [Hall Hnth].
    split; [constructor; [reflexivity | exact Hall]|].
    intros Hjk _.
    destruct k as [|k].
    + simpl. apply Hlast. lia.
    + replace (S (S k) - 1)%nat with (S k) by lia.
      cbn [nth].
      replace (S k - 1)%nat with k in Hnth by lia.
      apply Hnth; lia.
Qed.

End Window.

Lemma first_acquire (N : nat) (W t0 : Z) (drift : list Z) :
  (1 <= N)%nat ->
  acquire (start N W t0 drift) =
  (Ok tt, round_push (new N W) (tick (mkWorld t0 drift [] []))).
Proof.
  intros HN. unfold acquire, MAX_RECURSION_DEPTH.
  rewrite acquire_round by (simpl; lia).
  destruct N as [|n]; [lia | reflexivity].
Qed.

(** C6.  On a new limiter with [maxRequests = N >= 1] and
    [windowMs = W], with a clock that never goes back and timers that
    never fire early, [N + 1] calls of [acquire] issued one after the
    other all complete, and the last one completes no earlier than [W]
    milliseconds after the timestamp recorded by the first. *)
Theorem last_acquire_waits_for_window
        (N : nat) (W t0 : Z) (drift : list Z) :
  (1 <= N)%nat ->
  Forall (Z.le 0) drift ->
  let calls := acquire_times (S N) (start N W t0 drift) in
  Forall (fun call => fst call = true) calls /\
  snd (nth 0 calls (false, 0)) + W <= snd (nth N calls (false, 0)).
Proof.
  intros HN Hdr calls. subst calls.
  cbn [acquire_times]. rewrite (first_acquire N W t0 drift HN).
  set (s1 := round_push _ _).
  set (t1 := now (world s1)).
  assert (Hb1 : basic N W s1).
  { unfold basic, s1. simpl. repeat split; try lia.
    apply tl_nonneg, tl_nonneg. exact Hdr. }
  assert (Ht1 : track W t1 1 s1).
  { left. unfold first_live, s1, t1. simpl.
    split; [now exists []|]. split; [reflexivity|].
    constructor; [lia | constructor]. }
  destruct (acquire_times_track N W t1 HN N 1%nat s1 Hb1 Ht1) as [Hall Hnth].
  split.
  - constructor; [reflexivity | exact Hall].
  - cbn [nth snd].
    destruct N as [|n]; [lia|].
    cbn [nth]. fold t1.
    replace (S n - 1)%nat with n in Hnth by lia.
    apply Hnth; lia.
Qed.

Lemma last_acquire_waits_for_window_witness :
  let calls := acquire_times 3 (start 2 1000 5 [1; 1; 1]) in
  Forall (fun call => fst call = true) calls /\
  snd (nth 0 calls (false, 0)) + 1000 <= snd (nth 2 calls (false, 0)).
Proof.
  apply (last_acquire_waits_for_window 2 1000 5 [1; 1; 1]).
  - lia.
  - repeat (apply Forall_cons; [lia|]). apply Forall_nil.
Defined.

Lemma requests_bounded_cap_unreachable_witness :
  let s := run [OpAcquire; OpAcquire; OpCanRequest; OpAcquire; OpGetStatus]
               (start 2 1000 5 [1; 1; 1]) in
  (List.length (requests (limiter s)) <= 2)%nat /\
  ~ In EvWarnCapped (trace (world s)).
Proof.
  apply (requests_bounded_cap_unreachable
           2 1000 5 [1; 1; 1]
           [OpAcquire; OpAcquire; OpCanRequest; OpAcquire; OpGetStatus]).
Defined.

End LimiterFacts.

(* ================================================================== *)
(** * Properties of the patterns *)
(* ================================================================== *)

Module RegExpFacts.

Import RegExp.

Lemma backtrack_sound {A} (k : nat -> option A) lo n a :
  backtrack k lo n = Some a ->
  exists j, (lo <= j <= n)%nat /\ k j = Some a.
Proof.
  induction n as [|n IH]; simpl.
  - destruct lo; simpl; [|discriminate].
    destruct (k 0%nat) eqn:E; [|discriminate].
    intros [= <-]. exists 0%nat. split; [lia | exact E].
  - destruct (Nat.leb_spec lo (S n)) as [Hle|Hlt].
    + replace (S n <? lo)%nat with false
        by (symmetry; apply Nat.ltb_ge; lia).
      destruct (k (S n)) eqn:E.
      * intros [= <-]. exists (S n). split; [lia | exact E].
      * intros H. destruct (IH H) as (j & Hj & Hk).
        exists j. split; [lia | exact Hk].
    + replace (S n <? lo)%nat with true
        by (symmetry; apply Nat.ltb_lt; lia).
      discriminate.
Qed.

Lemma run_length_prefix (p : ascii -> bool) s j :
  (j <= run_length p s)%nat ->
  Forall (fun x => p x = true) (firstn j s) /\ List.length (firstn j s) = j.
Proof.
  revert j. induction s as [|x s IH]; intros j; simpl.
  - intros Hj. replace j with 0%nat by lia. split; [constructor | reflexivity].
  - destruct j as [|j]; [split; [constructor | reflexivity]|].
    destruct (p x) eqn:Hp; [|lia].
    intros Hj. destruct (IH j) as [Hall Hlen]; [lia|].
    simpl. split; [now constructor | now rewrite Hlen].
Qed.

Lemma capped_le hi n : (capped hi n <= n)%nat.
Proof. destruct hi; simpl; lia. Qed.

Lemma capped_bound h n : (capped (Some h) n <= h)%nat.
Proof. simpl. lia. Qed.

(** What the matcher accepts is a word of the pattern. *)
Lemma m_sound ic r : forall A s (k : list ascii -> option A) a,
  m ic r s k = Some a ->
  exists w s', s = (w ++ s')%list /\ L ic r w /\ k s' = Some a.
Proof.
  induction r as [|c|c lo hi|r1 IH1 r2 IH2|r1 IH1 r2 IH2];
    intros A s k a; simpl.
  - intros H. now exists [], s.
  - destruct s as [|x s]; [discriminate|].
    destruct (accepts ic c x) eqn:E; [|discriminate].
    intros H. exists [x], s. repeat split; eauto.
  - intros H. apply backtrack_sound in H. destruct H as (j & [Hlo Hhi] & Hk).
    pose proof (capped_le hi (run_length (accepts ic c) s)) as Hc.
    destruct (run_length_prefix (accepts ic c) s j) as [Hall Hlen]; [lia|].
    exists (firstn j s), (skipn j s).
    split; [now rewrite firstn_skipn|].
    split; [|exact Hk].
    split; [exact Hall|]. rewrite Hlen. split; [exact Hlo|].
    intros h ->. pose proof (capped_bound h (run_length (accepts ic c) s)). lia.
  - intros H. apply IH1 in H. destruct H as (w1 & s1 & -> & H1 & H).
    apply IH2 in H. destruct H as (w2 & s2 & -> & H2 & H).
    exists (w1 ++ w2)%list, s2. split; [now rewrite app_assoc|].
    split; [|exact H]. now exists w1, w2.
  - destruct (m ic r1 s k) eqn:E.
    + intros [= <-]. apply IH1 in E. destruct E as (w & s' & -> & Hw & Hk).
      exists w, s'. auto.
    + intros H. apply IH2 in H. destruct H as (w & s' & -> & Hw & Hk).
      exists w, s'. auto.
Qed.

Lemma firstn_app_exact {A} (w s : list A) :
  firstn (List.length (w ++ s) - List.length s) (w ++ s) = w.
Proof.
  rewrite length_app. replace (List.length w + List.length s - List.length s)%nat
    with (List.length w) by lia.
  rewrite firstn_app, Nat.sub_diag, firstn_all. simpl. apply app_nil_r.
Qed.

(** The group of a match is a word of the pattern's group. *)
Lemma match_at_capture r s mt :
  match_at r s = Some mt ->
  L (ignoreCase r) (group1 r) (capture1 mt) /\
  exists w0 w2 s3,
    s = (w0 ++ capture1 mt ++ w2 ++ s3)%list /\
    L (ignoreCase r) (before r) w0 /\
    L (ignoreCase r) (after r) w2 /\
    (anchoredEnd r = true -> s3 = []).
Proof.
  unfold match_at. intros H.
  apply m_sound in H. destruct H as (w0 & s1 & -> & H0 & H).
  apply m_sound in H. destruct H as (w1 & s2 & -> & H1 & H).
  apply m_sound in H. destruct H as (w2 & s3 & -> & H2 & H).
  assert (Hmt : capture1 mt = w1 /\ (anchoredEnd r = true -> s3 = [])).
  { destruct (anchoredEnd r).
    - destruct s3; [|discriminate]. injection H as <-. simpl.
      split; [apply firstn_app_exact | reflexivity].
    - injection H as <-. simpl.
      split; [apply firstn_app_exact | discriminate]. }
  destruct Hmt as [-> Hend]. split; [exact H1|].
  exists w0, w2, s3. auto.
Qed.

Lemma search_sound r : forall s mt,
  search r s = Some mt ->
  exists skipped s',
    s = (skipped ++ s')%list /\ match_at r s' = Some mt /\
    (anchoredStart r = true -> skipped = []).
Proof.
  induction s as [|x s IH]; intros mt; simpl.
  - destruct (match_at r []) eqn:E.
    + intros [= <-]. now exists [], [].
    + destruct (anchoredStart r); discriminate.
  - destruct (match_at r (x :: s)) eqn:E.
    + intros [= <-]. now exists [], (x :: s).
    + destruct (anchoredStart r) eqn:Ea; [discriminate|].
      intros H. destruct (IH mt H) as (sk & s' & -> & Hm & _).
      exists (x :: sk), s'. repeat split; [exact Hm | discriminate].
Qed.

Lemma accepts_t ic x : accepts ic (Char "t") x = true -> is_t ic x.
Proof.
  unfold accepts, is_t. destruct ic; intros H; apply Ascii.eqb_eq in H.
  - symmetry. exact H.
  - symmetry. exact H.
Qed.

Lemma tt_digits_shape ic lo hi w :
  L ic (tt_digits lo hi) w ->
  id_shape ic lo hi (string_of_list_ascii w).
Proof.
  simpl. intros (w1 & ds & -> & Htt & Hall & Hlo & Hhi).
  destruct Htt as (wa & w1' & -> & (a & -> & Ha) & wb & w1'' & -> & (b & -> & Hb) & ->).
  exists a, b, ds. rewrite list_ascii_of_string_of_list_ascii. simpl.
  repeat split; auto using accepts_t.
Qed.

Lemma String_match_group str r mt lo hi :
  group1 r = tt_digits lo hi ->
  String_match str r = Some mt ->
  id_shape (ignoreCase r) lo hi (group mt).
Proof.
  unfold String_match, group. intros Hg H.
  apply search_sound in H. destruct H as (_ & s' & _ & H & _).
  apply match_at_capture in H. destruct H as [H _].
  rewrite Hg in H. now apply tt_digits_shape.
Qed.

Lemma id_shape_weaken ic lo hi lo' id :
  (lo' <= lo)%nat -> id_shape ic lo hi id -> id_shape ic lo' None id.
Proof.
  intros Hle (a & b & ds & E & Ha & Hb & Hall & Hlo & _).
  exists a, b, ds. repeat split; auto; [lia | discriminate].
Qed.

(** [IMDB_ID.test] accepts exactly the strict identifiers. *)
Lemma IMDB_ID_test_sound id :
  test IMDB_ID id = true -> strict_id id.
Proof.
  unfold test, String_match.
  destruct (search IMDB_ID (list_ascii_of_string id)) as [mt|] eqn:E;
    [intros _ | discriminate].
  apply search_sound in E. destruct E as (sk & s' & Hs & H & Hstart).
  rewrite (Hstart eq_refl) in Hs. simpl in Hs. subst s'.
  apply match_at_capture in H.
  destruct H as (Hg & w0 & w2 & s3 & Hs & H0 & H2 & Hend).
  simpl in Hg, H2. rewrite Hg, H2, (Hend eq_refl) in Hs. simpl in Hs.
  rewrite app_nil_r in Hs.
  change (before IMDB_ID) with (tt_digits 7 (Some 8%nat)) in H0.
  apply tt_digits_shape in H0. rewrite <- Hs in H0.
  now rewrite string_of_list_ascii_of_string in H0.
Qed.

Lemma run_length_all (p : ascii -> bool) s :
  Forall (fun x => p x = true) s -> run_length p s = List.length s.
Proof.
  induction 1 as [|x s Hx _ IH]; simpl; [reflexivity|].
  now rewrite Hx, IH.
Qed.

Lemma IMDB_ID_test_complete id :
  strict_id id -> test IMDB_ID id = true.
Proof.
  intros (a & b & ds & E & Ha & Hb & Hall & Hlo & Hhi).
  specialize (Hhi 8%nat eq_refl).
  unfold is_t in Ha, Hb. subst a b.
  unfold test, String_match. rewrite E.
  assert (Hm : exists mt,
             match_at IMDB_ID ("t"%char :: "t"%char :: ds) = Some mt).
  { unfold match_at. cbn -[Nat.sub firstn Nat.min Nat.ltb].
    rewrite (run_length_all (accepts false Digit) ds Hall).
    rewrite Nat.min_r by exact Hhi.
    destruct (List.length ds) as [|n] eqn:En; [lia|].
    cbn [backtrack].
    replace (S n <? 7)%nat with false by (symmetry; apply Nat.ltb_ge; lia).
    rewrite <- En, skipn_all. eauto. }
  destruct Hm as [mt Hm]. cbn [search]. now rewrite Hm.
Qed.

End RegExpFacts.

(* ================================================================== *)
(** * Properties of the retrying fetch *)
(* ================================================================== *)

Module FetchFacts.

Import RateLimiter.

(** A reply with a 4xx status other than 429 ends the [try] with a
    throw that the [catch] of the same round handles like a network
    failure: unless the round is the last one, it waits for the backoff
    and the loop goes on. *)
Lemma client_error_round url maxRetries attempt lastError s r rest :
  network (world s) = Responds r :: rest ->
  400 <= status r <= 499 ->
  status r <> 429 ->
  let fetched :=
    mkSt (limiter s)
         (mkWorld (now (world s)) (drift (world s)) rest
                  (EvFetch url :: trace (world s))) in
  try_catchM (attempt_body url maxRetries attempt lastError)
             (attempt_catch maxRetries attempt) s =
  if attempt =? Z.of_nat maxRetries - 1
  then (Throw (http_error r), fetched)
  else (Ok (Continue (Some (http_error r))),
        snd (setTimeout_await (Int (backoff attempt)) fetched)).
Proof.
  destruct s as [l [t dr net tr]]. simpl. intros -> Hst Hne.
  unfold try_catchM, attempt_body, attempt_catch, mbind, fetch. simpl.
  destruct (Z.eqb_spec (status r) 429) as [|_]; [contradiction|].
  destruct (Z.leb_spec 500 (status r)) as [|_]; [lia|].
  unfold ok.
  destruct (Z.leb_spec (status r) 299) as [|_]; [lia|].
  rewrite andb_false_r. simpl.
  destruct (attempt =? Z.of_nat maxRetries - 1); reflexivity.
Qed.

(** C2.  With the configured three attempts and a server that answers
    404 each time, [fetchWithRetry] calls [fetch] three times and
    waits for two backoffs (1000 ms, then 2000 ms) before it throws
    the error of the 404. *)
Theorem fetchWithRetry_retries_404 :
  let s := Scenario.net_of
             [Scenario.reply_404; Scenario.reply_404; Scenario.reply_404] in
  let (r, s') := fetchWithRetry "u" CONFIG.MAX_RETRY_ATTEMPTS s in
  r = Throw (Js.Error "HTTP 404: Not Found") /\
  fetches (trace (world s')) = ["u"; "u"; "u"] /\
  waits (trace (world s')) = [Int 1000; Int 2000].
Proof. vm_compute. repeat split. Qed.

End FetchFacts.

(* ================================================================== *)
(** * Properties of the resolver *)
(* ================================================================== *)

Module ResolverFacts.

Import RegExp RegExpFacts MetadataResolver.

Lemma yields_shape str r mt :
  yields_tt_digits r ->
  String_match str r = Some mt ->
  id_shape true 1 None (group mt).
Proof.
  intros [Hic [lo Hg]] H.
  apply (String_match_group str r mt (S lo) None Hg) in H.
  rewrite Hic in H. apply (id_shape_weaken true (S lo) None 1); [lia | exact H].
Qed.

Lemma first_match_shape bodyText patterns id :
  Forall yields_tt_digits patterns ->
  first_match bodyText patterns = Some id ->
  id_shape true 1 None id.
Proof.
  induction 1 as [|r rs Hr _ IH]; simpl; [discriminate|].
  destruct (String_match bodyText r) as [mt|] eqn:E; [|exact IH].
  intros [= <-]. exact (yields_shape bodyText r mt Hr E).
Qed.

Lemma imdbLinkPatterns_yield : Forall yields_tt_digits imdbLinkPatterns.
Proof.
  repeat constructor; simpl; now exists 0%nat.
Qed.

Lemma imdbMatch_shape id mt :
  PlexAPIClient.imdbMatch id = Some mt -> id_shape true 1 None (group mt).
Proof.
  unfold PlexAPIClient.imdbMatch.
  destruct (String_match id plexGuidPattern) as [mt'|] eqn:E.
  - intros [= <-]. apply (yields_shape id plexGuidPattern mt'); [|exact E].
    split; [reflexivity | now exists 0%nat].
  - intros H. apply (yields_shape id plexBarePattern mt); [|exact H].
    split; [reflexivity | now exists 6%nat].
Qed.

Lemma scan_guids_shape guids id :
  PlexAPIClient.scan_guids guids = Ok (Some id) -> id_shape true 1 None id.
Proof.
  induction guids as [|g guids IH]; simpl; [discriminate|].
  destruct g as [gid|gid].
  - destruct gid as [|x gid']; [discriminate|].
    destruct (PlexAPIClient.imdbMatch (String x gid')) as [mt|] eqn:E;
      [|exact IH].
    intros [= <-]. exact (imdbMatch_shape _ mt E).
  - destruct (PlexAPIClient.imdbMatch gid) as [mt|] eqn:E; [|exact IH].
    intros [= <-]. exact (imdbMatch_shape _ mt E).
Qed.

(** C3 (as amended).  An identifier found by the scan of the page or
    in the metadata of the local server is the letters [tt], in either
    case, followed by one or more digits.  The fixed format, [tt] and 7
    or 8 digits, is what [IMDB_ID.test] accepts, and the two places
    that use an identifier, [getByIMDbId] and the construction of the
    link, reject every string that does not have it. *)
Theorem identifiers_checked_where_used :
  (forall page id,
      findIMDbIdInPage page = Some id -> id_shape true 1 None id) /\
  (forall metadata id,
      PlexAPIClient.extractIMDbId metadata = Ok (Some id) ->
      id_shape true 1 None id) /\
  (forall id, test IMDB_ID id = true <-> strict_id id) /\
  (forall c id,
      ~ strict_id id ->
      OMDBClient.getByIMDbId c id =
        (Throw (Js.Error ("Invalid IMDb ID format: " ++ id)), c)) /\
  (forall id,
      ~ strict_id id ->
      Content.createIMDbLink id =
        Throw (Js.Error ("Invalid IMDb ID format: " ++ id))).
Proof.
  assert (Hrej : forall id, ~ strict_id id -> test IMDB_ID id = false).
  { intros id Hn. destruct (test IMDB_ID id) eqn:E; [|reflexivity].
    destruct Hn. now apply IMDB_ID_test_sound. }
  split; [|split; [|split; [|split]]].
  - intros page id. apply first_match_shape, imdbLinkPatterns_yield.
  - intros [md|] id; simpl; [apply scan_guids_shape | discriminate].
  - intros id. split; [apply IMDB_ID_test_sound | apply IMDB_ID_test_complete].
  - intros c id Hn. unfold OMDBClient.getByIMDbId. now rewrite (Hrej id Hn).
  - intros id Hn. unfold Content.createIMDbLink. now rewrite (Hrej id Hn).
Qed.

Lemma identifiers_checked_where_used_witness :
  id_shape true 1 None "tt0133093" /\
  Content.createIMDbLink "tt1" =
    Throw (Js.Error "Invalid IMDb ID format: tt1").
Proof.
  destruct identifiers_checked_where_used as (Hpage & _ & Htest & _ & Hlink).
  split.
  - apply (Hpage Scenario.matrix_page "tt0133093"). reflexivity.
  - apply (Hlink "tt1"). intros Hs. apply Htest in Hs. discriminate Hs.
Defined.

(** C3, as stated, fails: the link [imdb.com/title/tt1] in the page
    makes the resolver return [tt1], which [^tt\d{7,8}$] does not
    match. *)
Lemma resolver_returns_unchecked_id :
  fst (resolveIMDbId Scenario.short_id_page (Scenario.client_of [])
                     Scenario.unknown_movie) = Ok (Some "tt1") /\
  test IMDB_ID "tt1" = false.
Proof. split; reflexivity. Qed.

(** Without an identifier in the page and without the Plex client, what
    [searchByTitle] throws is what [resolveIMDbId] throws. *)
Lemma resolveIMDbId_propagates page c movieInfo e :
  findIMDbIdInPage page = None ->
  plexClient page = None ->
  fst (OMDBClient.searchByTitle c (title movieInfo)
                                (or_empty (year movieInfo))) = Throw e ->
  fst (resolveIMDbId page c movieInfo) = Throw e.
Proof.
  intros Hpage Hplex Hsearch.
  unfold resolveIMDbId, strategy3. rewrite Hpage, Hplex. simpl.
  destruct (OMDBClient.searchByTitle c (title movieInfo)
                                     (or_empty (year movieInfo)))
    as [[data|e'] c']; simpl in *; congruence.
Qed.

(** C1.  On a page without an identifier, without the Plex client, for
    a title the provider does not know, every strategy fails; the
    provider's reply makes [searchByTitle] throw, and [resolveIMDbId]
    throws that error instead of returning [null].  The earlier lookup
    of [content.js] returns [null] on the same input. *)
Theorem resolveIMDbId_throws_when_not_found :
  fst (resolveIMDbId Scenario.plain_page
                     (Scenario.client_of [Scenario.not_found_reply])
                     Scenario.unknown_movie)
    = Throw (Js.Error "Movie not found!") /\
  fst (Content.findIMDbId_api
         (Scenario.client_of [Scenario.not_found_reply])
         "Nonexistent" (Some "2010"))
    = Ok None.
Proof. split; reflexivity. Qed.

End ResolverFacts.

(* ================================================================== *)
(** * Further properties of the cache *)
(* ================================================================== *)

Module CacheExtras.

Import LRUCache CacheFacts.

Section Extras.

Variable V : Type.
Variable JSON_stringify : V -> stringified.
Implicit Types (c : LRUCache.t V) (ops : list (op V)).

Lemma Map_get_set_other k key (item : CacheItem V) m :
  k <> key -> Map_get k (Map_set key item m) = Map_get k m.
Proof.
  intros Hne. induction m as [|[k0 i0] m IH]; simpl.
  - destruct (String.eqb_spec k key); [contradiction | reflexivity].
  - destruct (String.eqb_spec key k0) as [->|Hne0]; simpl.
    + destruct (String.eqb_spec k k0); [contradiction | reflexivity].
    + now rewrite IH.
Qed.

(** X1.  A value written by [set] is what [get] returns for the same
    key until its time to live is over, on any cache: the call counts
    as a hit. *)
Theorem get_after_set_hits c now now' key v t :
  t <= now + ttl c ->
  let c1 := set c now now' key v in
  fst (get c1 t key) = Some v /\
  hits (snd (get c1 t key)) = S (hits c) /\
  misses (snd (get c1 t key)) = misses c.
Proof.
  intros Ht c1. unfold get.
  assert (Hget : Map_get key (cache c1) =
                 Some (mkItem v (now + ttl c) now')).
  { subst c1. unfold set. simpl. apply Map_get_set_same. }
  rewrite Hget. simpl.
  destruct (Z.ltb_spec (now + ttl c) t); [lia|].
  subst c1. simpl. auto.
Qed.

(** X2.  [get] on a key whose entry has expired returns [null], counts
    a miss, removes that key from [keys()] and leaves every other entry
    as it was. *)
Theorem get_expired_removes_key c now key item :
  wf c ->
  Map_get key (cache c) = Some item ->
  expiry item < now ->
  let c' := snd (get c now key) in
  fst (get c now key) = None /\
  ~ In key (keys c') /\
  misses c' = S (misses c) /\ hits c' = hits c /\
  (forall k, k <> key -> Map_get k (cache c') = Map_get k (cache c)).
Proof.
  intros Hwf Hget Hexp c'. subst c'. unfold get. rewrite Hget.
  destruct (Z.ltb_spec (expiry item) now); [|lia]. simpl.
  split; [reflexivity|]. split; [|split; [reflexivity|split; [reflexivity|]]].
  - unfold keys. simpl. apply Map_get_None_iff.
    now apply Map_get_delete_same.
  - intros k Hne. now apply Map_get_delete_other.
Qed.

(** X3.  After [delete(key)], [get(key)] finds nothing, and the entries
    of the other keys are untouched. *)
Theorem delete_then_get_misses c now key :
  wf c ->
  fst (get (delete c key) now key) = None /\
  (forall k, k <> key ->
     Map_get k (cache (delete c key)) = Map_get k (cache c)).
Proof.
  intros Hwf. split.
  - unfold get, delete. simpl.
    now rewrite (Map_get_delete_same V key (cache c) Hwf).
  - intros k Hne. unfold delete. simpl. now apply Map_get_delete_other.
Qed.

(** X4.  Below capacity [set] evicts nothing: the entries of the other
    keys stay, and the size grows by one for a fresh key and stays for
    a key already present. *)
Theorem set_below_capacity_keeps_entries c now now' key v :
  (Map_size (cache c) < maxSize c)%nat ->
  let c' := set c now now' key v in
  (forall k, k <> key -> Map_get k (cache c') = Map_get k (cache c)) /\
  (Map_get key (cache c) = None ->
     cache c' = (cache c ++ [(key, mkItem v (now + ttl c) now')])%list) /\
  (forall old, Map_get key (cache c) = Some old ->
     Map_size (cache c') = Map_size (cache c)).
Proof.
  intros Hroom c'.
  assert (Hc' : cache c' =
                Map_set key (mkItem v (now + ttl c) now') (cache c)).
  { subst c'. unfold set. simpl.
    destruct (Nat.leb_spec (maxSize c) (Map_size (cache c))); [lia|reflexivity]. }
  rewrite Hc'. split; [|split].
  - intros k Hne. now apply Map_get_set_other.
  - intros Hfresh. now apply Map_set_fresh.
  - intros old Hold. unfold Map_size. now apply (Map_set_present_length V key _ old).
Qed.

Lemma step_cachedSize c o :
  _cachedSize (step c o) = _cachedSize c /\
  _cacheSizeTimestamp (step c o) = _cacheSizeTimestamp c.
Proof.
  destruct o as [t key|t t' key v|t key|key|]; simpl; auto.
  - unfold get. destruct (Map_get key (cache c)) as [item|]; [|auto].
    destruct (expiry item <? t); auto.
  - unfold has, get. destruct (Map_get key (cache c)) as [item|]; [|auto].
    destruct (expiry item <? t); auto.
Qed.

Lemma run_cachedSize ops : forall c,
  _cachedSize (run ops c) = _cachedSize c /\
  _cacheSizeTimestamp (run ops c) = _cacheSizeTimestamp c.
Proof.
  induction ops as [|o ops IH]; intros c; simpl; [auto|].
  destruct (IH (step c o)) as [-> ->]. apply step_cachedSize.
Qed.

(** X5.  The size that the sampling [getSizeBytes] has computed, when
    it is not zero, is what it returns for the next 60 seconds, whatever
    is done to the cache in between: entries added, deleted or cleared
    do not show. *)
Theorem getSizeBytes_remembered c t1 t2 n ops t3 t4 :
  _cachedSize c = None ->
  fst (getSizeBytes JSON_stringify c t1 t2) = Ok n ->
  n <> 0 ->
  t3 - 60000 < t2 ->
  let c1 := snd (getSizeBytes JSON_stringify c t1 t2) in
  getSizeBytes JSON_stringify (run ops c1) t3 t4 = (Ok n, run ops c1).
Proof.
  intros Hnone Hn Hn0 Ht c1.
  assert (Hc1 : _cachedSize c1 = Some n /\ _cacheSizeTimestamp c1 = Some t2).
  { subst c1. revert Hn. unfold getSizeBytes. rewrite Hnone. simpl.
    destruct (sample_loop V JSON_stringify (cache c) (List.length (cache c))
                          0%Q 0) as [size|e]; simpl; [|discriminate].
    intros [= <-]. auto. }
  destruct Hc1 as [Hs Hts].
  destruct (run_cachedSize ops c1) as [Hs' Hts'].
  unfold getSizeBytes. rewrite Hs', Hts', Hs, Hts. simpl.
  destruct (Z.eqb_spec n 0); [contradiction|]. simpl.
  destruct (Z.ltb_spec (t3 - 60000) t2); [reflexivity | lia].
Qed.

Lemma sample_loop_plain entries : forall total size count q,
  (count + List.length entries <= maxSampleSize)%nat ->
  plain_loop V JSON_stringify entries size = Ok q ->
  sample_loop V JSON_stringify entries total size count = Ok q.
Proof.
  induction entries as [|[key item] rest IH]; intros total size count q Hlen;
    simpl in *.
  - auto.
  - destruct (Nat.ltb_spec count maxSampleSize); [|lia].
    destruct (stringify_length V JSON_stringify (value item)) as [n|e];
      simpl; [|discriminate].
    apply IH. lia.
Qed.

(** X6.  On a cache of at most ten entries whose size the copy without
    [try] can compute, the sampling copy computes the same size. *)
Theorem getSizeBytes_copies_agree c t1 t2 q :
  _cachedSize c = None ->
  (List.length (cache c) <= 10)%nat ->
  getSizeBytes_unguarded JSON_stringify c = Ok q ->
  fst (getSizeBytes JSON_stringify c t1 t2) = Ok (Math_round q).
Proof.
  intros Hnone Hlen Hq. unfold getSizeBytes. rewrite Hnone. simpl.
  rewrite (sample_loop_plain (cache c) (List.length (cache c)) 0%Q 0%nat q);
    [reflexivity | exact Hlen | exact Hq].
Qed.

End Extras.

Lemma get_after_set_hits_witness :
  let c1 := set Scenario.full2 9 9 "c" tt in
  fst (get c1 3600009 "c") = Some tt /\
  hits (snd (get c1 3600009 "c")) = S (hits Scenario.full2) /\
  misses (snd (get c1 3600009 "c")) = misses Scenario.full2.
Proof.
  apply (get_after_set_hits unit Scenario.full2 9 9 "c" tt 3600009).
  simpl. lia.
Defined.

Lemma get_expired_removes_key_witness :
  let c' := snd (get Scenario.full2 3600001 "a") in
  fst (get Scenario.full2 3600001 "a") = None /\
  ~ In "a" (keys c') /\
  misses c' = S (misses Scenario.full2) /\ hits c' = hits Scenario.full2 /\
  (forall k, k <> "a" ->
     Map_get k (cache c') = Map_get k (cache Scenario.full2)).
Proof.
  apply (get_expired_removes_key unit Scenario.full2 3600001 "a"
                                 (mkItem tt 3600000 0)).
  - apply run_wf, new_wf.
  - reflexivity.
  - simpl. lia.
Defined.

Lemma delete_then_get_misses_witness :
  fst (get (delete Scenario.full2 "a") 1 "a") = None /\
  (forall k, k <> "a" ->
     Map_get k (cache (delete Scenario.full2 "a"))
     = Map_get k (cache Scenario.full2)).
Proof.
  apply (delete_then_get_misses unit Scenario.full2 1 "a").
  apply run_wf, new_wf.
Defined.

Lemma set_below_capacity_keeps_entries_witness :
  let c := new unit 2 60 in
  let c' := set c 0 0 "a" tt in
  (forall k, k <> "a" -> Map_get k (cache c') = Map_get k (cache c)) /\
  (Map_get "a" (cache c) = None ->
     cache c' = (cache c ++ [("a", mkItem tt (0 + ttl c) 0)])%list) /\
  (forall old, Map_get "a" (cache c) = Some old ->
     Map_size (cache c') = Map_size (cache c)).
Proof.
  apply (set_below_capacity_keeps_entries unit (new unit 2 60) 0 0 "a" tt).
  simpl. lia.
Defined.

Lemma getSizeBytes_remembered_witness :
  let c1 := snd (getSizeBytes Scenario.stringify_example Examples.three_plain 1 2) in
  getSizeBytes Scenario.stringify_example (run [OpClear] c1) 50000 50001
  = (Ok 24, run [OpClear] c1).
Proof.
  apply (getSizeBytes_remembered bool Scenario.stringify_example
                                 Examples.three_plain 1 2 24 [OpClear] 50000 50001).
  - reflexivity.
  - reflexivity.
  - lia.
  - lia.
Defined.

Lemma getSizeBytes_copies_agree_witness :
  fst (getSizeBytes Scenario.stringify_example Examples.three_plain 1 2)
  = Ok (Math_round (24 # 1)).
Proof.
  apply (getSizeBytes_copies_agree bool Scenario.stringify_example
                                   Examples.three_plain 1 2 (24 # 1)).
  - reflexivity.
  - simpl. lia.
  - reflexivity.
Defined.

End CacheExtras.

(* ================================================================== *)
(** * Further properties of the rate limiter *)
(* ================================================================== *)

Module LimiterExtras.

Import RateLimiter LimiterFacts.

(** X7.  [getStatus()] purges and then reports: [remaining] lies between
    0 and [maxRequests] and, within the bound, is [maxRequests] minus the
    number of live timestamps; [resetIn] is 0 when no timestamp is live
    and positive when one is, whatever the clock shows. *)
Theorem getStatus_reports_live_requests s :
  exists st s',
    getStatus s = (Ok st, s') /\
    limiter s' = purge (now (world s')) (limiter s) /\
    0 <= remaining st <= Z.of_nat (maxRequests (limiter s)) /\
    (bounded s ->
       remaining st =
       Z.of_nat (maxRequests (limiter s))
       - Z.of_nat (List.length (requests (limiter s')))) /\
    (requests (limiter s') = [] -> resetIn st = 0) /\
    (requests (limiter s') <> [] -> 0 < resetIn st) /\
    total st = maxRequests (limiter s) /\
    window st = windowMs (limiter s).
Proof.
  destruct s as [[N W rs] [t dr net tr]].
  eexists. eexists. split; [reflexivity|].
  unfold bounded. simpl.
  match goal with |- context [filter ?g rs] => set (f := g) end.
  pose proof (filter_length_le f rs) as Hlen.
  split; [reflexivity|]. split; [lia|]. split; [|split; [|split]].
  - intros Hb. lia.
  - intros ->. reflexivity.
  - destruct (filter f rs) as [|first rest] eqn:E; [congruence|].
    intros _.
    assert (Hin : In first (filter f rs)) by (rewrite E; now left).
    apply filter_In in Hin. destruct Hin as [_ Hf]. unfold f in Hf.
    apply Z.ltb_lt in Hf. lia.
  - split; reflexivity.
Qed.

(** X8.  When [canRequest()] has answered [true], the [acquire()] that
    follows returns without waiting: it adds no event to the trace and
    records the time it reads as the latest timestamp. *)
Theorem canRequest_then_acquire_is_immediate s s1 :
  bounded s ->
  canRequest s = (Ok true, s1) ->
  exists s2,
    acquire s1 = (Ok tt, s2) /\
    trace (world s2) = trace (world s1) /\
    requests (limiter s2) =
      (requests (purge (now (tick (world s1))) (limiter s1))
       ++ [now (world s2)])%list.
Proof.
  destruct s as [[N W rs] [t dr net tr]].
  unfold bounded. simpl. intros Hb H.
  unfold canRequest, mbind in H. rewrite cleanupExpired_eq in H.
  injection H as Hlt <-.
  apply Nat.ltb_lt in Hlt. simpl in Hlt.
  unfold acquire, MAX_RECURSION_DEPTH.
  rewrite acquire_round by (simpl; lia).
  cbv zeta. unfold purge, tick.
  cbn [world limiter now drift network trace maxRequests windowMs requests].
  match goal with
  | |- context [filter ?g (filter ?h rs)] =>
      pose proof (filter_length_le g (filter h rs)) as Hlen
  end.
  match goal with
  | |- context [(N <=? ?n)%nat] => destruct (Nat.leb_spec N n); [lia|]
  end.
  eexists. split; [reflexivity|]. split; reflexivity.
Qed.

Lemma canRequest_then_acquire_is_immediate_witness :
  exists s2,
    acquire (snd (canRequest (start 2 1000 5 [1; 1; 1]))) = (Ok tt, s2) /\
    trace (world s2) = trace (world (snd (canRequest (start 2 1000 5 [1; 1; 1]))))
    /\
    requests (limiter s2) =
      (requests (purge (now (tick (world (snd (canRequest (start 2 1000 5 [1; 1; 1]))))))
                       (limiter (snd (canRequest (start 2 1000 5 [1; 1; 1])))))
       ++ [now (world s2)])%list.
Proof.
  apply (canRequest_then_acquire_is_immediate (start 2 1000 5 [1; 1; 1])).
  - unfold bounded. simpl. lia.
  - reflexivity.
Defined.

(** X9.  A limiter built with [maxRequests = 0] never grants a slot:
    [acquire()] goes through its ten rounds without any delay (the wait
    it computes is [NaN]), throws the recursion-limit error and records
    nothing. *)
Theorem acquire_without_quota_throws (W t0 : Z) (drift : list Z) :
  let r := acquire (start 0 W t0 drift) in
  fst r = Throw Notions.recursion_error /\
  requests (limiter (snd r)) = [] /\
  waits (trace (world (snd r))) = repeat NaN 10.
Proof. repeat split. Qed.

Lemma step_basic N W s o :
  (1 <= N)%nat -> basic N W s -> basic N W (step s o).
Proof.
  intros HN Hb. destruct o.
  - destruct (acquire_step N W (now (world s) - W) HN 0%nat s Hb)
      as (s' & Hs' & Hb' & _).
    + right. unfold first_expired. lia.
    + unfold step. now rewrite Hs'.
  - destruct Hb as (H1 & H2 & H3 & H4). unfold basic. simpl.
    match goal with
    | |- context [filter ?f ?l] => pose proof (filter_length_le f l)
    end.
    repeat split; auto using tl_nonneg. lia.
  - destruct Hb as (H1 & H2 & H3 & H4). unfold basic. simpl.
    match goal with
    | |- context [filter ?f ?l] => pose proof (filter_length_le f l)
    end.
    repeat split; auto using tl_nonneg. lia.
  - destruct Hb as (H1 & H2 & H3 & H4). unfold basic. simpl.
    repeat split; auto. lia.
Qed.

Lemma run_basic N W ops : forall s,
  (1 <= N)%nat -> basic N W s -> basic N W (run ops s).
Proof.
  induction ops as [|o ops IH]; intros s HN Hb; simpl; [exact Hb|].
  apply IH; [exact HN|]. now apply step_basic.
Qed.

(** X10.  Calls that do not overlap never reach the recursion limit.
    With [maxRequests >= 1], a clock that never goes back and timers
    that never fire early, and every call awaited before the next one
    is made, [acquire()] does not throw: after any such sequence of
    calls on a new limiter it completes.  (A call made while another
    one waits is outside this statement: it resumes one level deeper
    for each slot taken before its turn.) *)
Theorem acquire_always_completes
        (N : nat) (W t0 : Z) (drift : list Z) ops :
  (1 <= N)%nat ->
  Forall (Z.le 0) drift ->
  fst (acquire (run ops (start N W t0 drift))) = Ok tt.
Proof.
  intros HN Hdr.
  assert (Hb : basic N W (run ops (start N W t0 drift))).
  { apply run_basic; [exact HN|]. unfold basic. simpl.
    repeat split; auto. lia. }
  set (s := run ops (start N W t0 drift)) in *.
  destruct (acquire_step N W (now (world s) - W) HN 0%nat s Hb)
    as (s' & Hs' & _).
  - right. unfold first_expired. lia.
  - now rewrite Hs'.
Qed.

Lemma acquire_always_completes_witness :
  fst (acquire (run [OpAcquire; OpAcquire; OpGetStatus; OpAcquire]
                    (start 2 1000 5 [1; 1; 1]))) = Ok tt.
Proof.
  apply (acquire_always_completes 2 1000 5 [1; 1; 1]).
  - lia.
  - repeat (apply Forall_cons; [lia|]). apply Forall_nil.
Defined.

Lemma getStatus_reports_live_requests_witness :
  exists st s',
    getStatus (run [OpAcquire] (start 2 1000 5 [1; 1; 1])) = (Ok st, s') /\
    remaining st = 1 /\ resetIn st = 999.
Proof.
  destruct (getStatus_reports_live_requests
              (run [OpAcquire] (start 2 1000 5 [1; 1; 1])))
    as (st & s' & Hs & _ & _ & Hrem & _).
  exists st, s'. split; [exact Hs|].
  injection Hs as <- <-. split; reflexivity.
Defined.

End LimiterExtras.

(* ================================================================== *)
(** * Further properties of the retrying fetch *)
(* ================================================================== *)

Module FetchExtras.

Import RateLimiter Notions.

Lemma fetches_cons e tr :
  fetches (e :: tr) =
  (fetches tr ++ match e with EvFetch u => [u] | _ => [] end)%list.
Proof.
  unfold fetches. simpl. rewrite flat_map_app. simpl.
  now rewrite app_nil_r.
Qed.

Lemma waits_cons e tr :
  waits (e :: tr) =
  (waits tr ++ match e with EvTimeout ms => [ms] | _ => [] end)%list.
Proof.
  unfold waits. simpl. rewrite flat_map_app. simpl.
  now rewrite app_nil_r.
Qed.

Lemma quiet_ret {A} (a : A) : quiet (ret a).
Proof. intros s. reflexivity. Qed.

Lemma quiet_throw {A} e : quiet (@throw A e).
Proof. intros s. reflexivity. Qed.

Lemma quiet_bind {A B} (m : M A) (k : A -> M B) :
  quiet m -> (forall a, quiet (k a)) -> quiet (mbind m k).
Proof.
  intros Hm Hk s. unfold mbind. specialize (Hm s).
  destruct (m s) as [[a|e] s']; simpl in *.
  - now rewrite Hk.
  - exact Hm.
Qed.

Lemma quiet_Date_now : quiet Date_now.
Proof. intros s. reflexivity. Qed.

Lemma quiet_get_limiter : quiet get_limiter.
Proof. intros s. reflexivity. Qed.

Lemma quiet_set_requests rs : quiet (set_requests rs).
Proof. intros s. reflexivity. Qed.

Lemma quiet_setTimeout ms : quiet (setTimeout_await ms).
Proof. intros s. unfold fetched. simpl. now rewrite fetches_cons, app_nil_r. Qed.

Lemma quiet_emit e :
  (forall u, e <> EvFetch u) -> quiet (emit e).
Proof.
  intros He s. unfold fetched. simpl. rewrite fetches_cons.
  destruct e; try apply app_nil_r. now destruct (He url).
Qed.

Lemma quiet_cleanup : quiet cleanup.
Proof.
  unfold cleanup, _cleanupExpired.
  repeat (apply quiet_bind; [|intros ?]);
    try apply quiet_Date_now; try apply quiet_get_limiter;
    try apply quiet_set_requests; try apply quiet_ret.
  destruct (_ <? _).
  - apply quiet_bind; [apply quiet_set_requests|intros _].
    apply quiet_emit. discriminate.
  - apply quiet_ret.
Qed.

Lemma quiet_acquire_from r : forall d, quiet (acquire_from r d).
Proof.
  induction r as [|r IH]; intros d; cbn [acquire_from].
  - apply quiet_bind; [apply quiet_emit; discriminate | intros _].
    apply quiet_throw.
  - cbn [negb CONFIG.FEATURES.ENABLE_RATE_LIMITING].
    apply quiet_bind; [apply quiet_cleanup | intros _].
    apply quiet_bind; [apply quiet_get_limiter | intros l].
    destruct (_ <=? _)%nat.
    + apply quiet_bind; [apply quiet_Date_now | intros t].
      apply quiet_bind; [apply quiet_emit; discriminate | intros _].
      apply quiet_bind; [apply quiet_setTimeout | intros _].
      apply IH.
    + apply quiet_bind; [apply quiet_Date_now | intros t].
      apply quiet_set_requests.
Qed.

(** Unfolds the monadic steps of a round. *)
Ltac round :=
  cbv beta iota zeta
      delta [try_catchM attempt_body attempt_catch fetch mbind
             setTimeout_await ret throw negb];
  cbn [world limiter now drift network trace].

(** One round of the loop calls [fetch] exactly once. *)
Lemma round_fetches_once url maxRetries attempt lastError s :
  fetched (snd (try_catchM (attempt_body url maxRetries attempt lastError)
                           (attempt_catch maxRetries attempt) s))
  = (fetched s ++ [url])%list.
Proof.
  destruct s as [l [t dr net tr]].
  unfold try_catchM, attempt_body, attempt_catch, mbind, fetch, fetched.
  cbn [world limiter now drift network trace].
  destruct net as [|[r|e] rest].
  - destruct (attempt =? Z.of_nat maxRetries - 1); simpl;
      rewrite ?fetches_cons; simpl; rewrite ?app_nil_r; reflexivity.
  - destruct (status r =? 429); [|destruct (500 <=? status r);
                                   [|destruct (negb (ok r))]];
      destruct (attempt =? Z.of_nat maxRetries - 1); simpl;
      rewrite ?fetches_cons; simpl; rewrite ?app_nil_r; reflexivity.
  - destruct (attempt =? Z.of_nat maxRetries - 1); simpl;
      rewrite ?fetches_cons; simpl; rewrite ?app_nil_r; reflexivity.
Qed.

Lemma fetch_loop_fetches url maxRetries remaining :
  forall attempt lastError s,
  exists k,
    (k <= remaining)%nat /\
    fetched (snd (fetch_loop url maxRetries remaining attempt lastError s))
    = (fetched s ++ repeat url k)%list.
Proof.
  induction remaining as [|remaining IH]; intros attempt lastError s.
  - exists 0%nat. split; [lia|]. simpl. now rewrite app_nil_r.
  - cbn [fetch_loop]. unfold mbind.
    pose proof (round_fetches_once url maxRetries attempt lastError s) as Hr.
    destruct (try_catchM _ _ s) as [[c|e] s1]; simpl in Hr.
    + destruct c as [lastError'|response].
      * destruct (IH (attempt + 1) lastError' s1) as (k & Hk & Hf).
        exists (S k). split; [lia|]. rewrite Hf, Hr.
        rewrite <- app_assoc. reflexivity.
      * exists 1%nat. split; [lia|]. simpl. exact Hr.
    + exists 1%nat. split; [lia|]. simpl. exact Hr.
Qed.

(** X11.  Whatever the network and the limiter do, one call of
    [fetchWithRetry] calls [fetch] at most [maxRetries] times, each time
    with the URL it was given. *)
Theorem fetchWithRetry_bounded_fetches url maxRetries s :
  exists k,
    (k <= maxRetries)%nat /\
    fetches (trace (world (snd (fetchWithRetry url maxRetries s))))
    = (fetches (trace (world s)) ++ repeat url k)%list.
Proof.
  unfold fetchWithRetry, mbind.
  pose proof (quiet_acquire_from MAX_RECURSION_DEPTH 0 s) as Hq.
  fold acquire in Hq. unfold fetched in Hq.
  destruct (acquire s) as [[[]|e] s1]; simpl in Hq.
  - destruct (fetch_loop_fetches url maxRetries maxRetries 0 None s1)
      as (k & Hk & Hf).
    exists k. split; [exact Hk|]. unfold fetched in Hf. now rewrite Hf, Hq.
  - exists 0%nat. split; [lia|]. simpl. now rewrite app_nil_r.
Qed.

(** X12.  A reply with a status of 500 or more followed by a successful
    reply: [fetchWithRetry] returns the second reply after two calls of
    [fetch] and exactly one wait, the first backoff of 1000 ms. *)
Theorem fetchWithRetry_recovers_from_server_error
        url maxRetries s s1 r1 r2 rest :
  (2 <= maxRetries)%nat ->
  acquire s = (Ok tt, s1) ->
  network (world s1) = Responds r1 :: Responds r2 :: rest ->
  500 <= status r1 ->
  ok r2 = true ->
  exists s2,
    fetchWithRetry url maxRetries s = (Ok r2, s2) /\
    fetches (trace (world s2)) = (fetches (trace (world s1)) ++ [url; url])%list /\
    waits (trace (world s2)) = (waits (trace (world s1)) ++ [Int 1000])%list /\
    network (world s2) = rest.
Proof.
  intros Hmax Hacq Hnet H500 Hok.
  unfold fetchWithRetry, mbind. rewrite Hacq.
  destruct s1 as [l [t dr net tr]]. simpl in Hnet. subst net.
  destruct maxRetries as [|[|m]]; try lia.
  assert (Hok' := Hok).
  unfold ok in Hok'. apply andb_prop in Hok'. destruct Hok' as [Hlo Hhi].
  apply Z.leb_le in Hlo, Hhi.
  assert (E1 : (status r1 =? 429) = false) by (apply Z.eqb_neq; lia).
  assert (E2 : (500 <=? status r1) = true) by (apply Z.leb_le; lia).
  assert (E3 : (0 =? Z.of_nat (S (S m)) - 1) = false)
    by (apply Z.eqb_neq; lia).
  assert (E4 : (status r2 =? 429) = false) by (apply Z.eqb_neq; lia).
  assert (E5 : (500 <=? status r2) = false) by (apply Z.leb_gt; lia).
  cbn [fetch_loop]. round. rewrite E1, E2, E3.
  round. rewrite E4, E5, Hok. round.
  eexists. split; [reflexivity|].
  cbn [world trace network].
  rewrite !fetches_cons, !waits_cons. simpl.
  rewrite !app_nil_r, <- !app_assoc. auto.
Qed.

Lemma all_429_loop url maxRetries r k :
  status r = 429 ->
  forall attempt s rest,
    network (world s) = (repeat (Responds r) k ++ rest)%list ->
    exists s',
      fetch_loop url maxRetries k attempt None s
      = (Throw Notions.unknown_error, s') /\
      waits (trace (world s'))
      = (waits (trace (world s)) ++ repeat (Notions.retry_wait r) k)%list /\
      network (world s') = rest.
Proof.
  intros Hst. induction k as [|k IH]; intros attempt s rest Hnet.
  - eexists. split; [reflexivity|]. simpl. now rewrite app_nil_r.
  - destruct s as [l [t dr net tr]]. simpl in Hnet. subst net.
    cbn [fetch_loop]. round. rewrite Hst. cbn [Z.eqb Pos.eqb]. round.
    match goal with
    | |- context [fetch_loop url maxRetries k (attempt + 1) None ?s1] =>
        destruct (IH (attempt + 1) s1 rest eq_refl) as (s' & Hs' & Hw & Hn)
    end.
    exists s'. split; [exact Hs'|]. split; [|exact Hn].
    rewrite Hw. cbn [world trace]. rewrite !waits_cons. simpl.
    rewrite app_nil_r, <- app_assoc. reflexivity.
Qed.

(** X13.  When every reply is a 429, [fetchWithRetry] waits after each
    of its [maxRetries] attempts, the last one included, for the time
    the reply asks for (60 s without a header), and then throws the
    error "Fetch failed after all retries with unknown error": no error
    of the 429 itself is kept. *)
Theorem fetchWithRetry_all_429 url maxRetries s s1 r rest :
  acquire s = (Ok tt, s1) ->
  network (world s1) = (repeat (Responds r) maxRetries ++ rest)%list ->
  status r = 429 ->
  exists s2,
    fetchWithRetry url maxRetries s = (Throw Notions.unknown_error, s2) /\
    waits (trace (world s2))
    = (waits (trace (world s1))
       ++ repeat (Notions.retry_wait r) maxRetries)%list /\
    network (world s2) = rest.
Proof.
  intros Hacq Hnet Hst. unfold fetchWithRetry, mbind. rewrite Hacq.
  exact (all_429_loop url maxRetries r maxRetries Hst 0 s1 rest Hnet).
Qed.

(** X14.  The backoff before a retry is [1000 * 2^attempt] ms capped at
    10000 ms: it lies between 1000 and 10000, never decreases from one
    attempt to the next, and is 10000 from the fifth attempt on. *)
Theorem backoff_bounds (attempt : Z) :
  0 <= attempt ->
  1000 <= backoff attempt <= 10000 /\
  backoff attempt <= backoff (attempt + 1) /\
  (attempt <= 3 -> backoff attempt = 1000 * 2 ^ attempt) /\
  (4 <= attempt -> backoff attempt = 10000).
Proof.
  intros Hge. unfold backoff, CONFIG.INITIAL_RETRY_DELAY_MS,
                     CONFIG.MAX_RETRY_DELAY_MS.
  assert (H1 : 1 <= 2 ^ attempt)
    by (pose proof (Z.pow_pos_nonneg 2 attempt); lia).
  assert (H2 : 2 ^ (attempt + 1) = 2 * 2 ^ attempt)
    by (rewrite Z.pow_add_r by lia; change (2 ^ 1) with 2; lia).
  assert (H3 : 4 <= attempt -> 16 <= 2 ^ attempt).
  { intros H4. change 16 with (2 ^ 4). apply Z.pow_le_mono_r; lia. }
  assert (H4 : attempt <= 3 -> 2 ^ attempt <= 8).
  { intros H. change 8 with (2 ^ 3). apply Z.pow_le_mono_r; lia. }
  rewrite H2. repeat split; intros; lia.
Qed.

Lemma fetchWithRetry_recovers_from_server_error_witness :
  exists s2,
    fetchWithRetry "u" 3
      (Scenario.net_of [Responds Examples.reply_500;
                        Responds Examples.reply_ok])
    = (Ok Examples.reply_ok, s2) /\
    fetches (trace (world s2)) = ["u"; "u"] /\
    waits (trace (world s2)) = [Int 1000] /\
    network (world s2) = [].
Proof.
  apply (fetchWithRetry_recovers_from_server_error
           "u" 3
           (Scenario.net_of [Responds Examples.reply_500;
                             Responds Examples.reply_ok])
           (snd (acquire (Scenario.net_of [Responds Examples.reply_500;
                                           Responds Examples.reply_ok])))
           Examples.reply_500 Examples.reply_ok []).
  - lia.
  - reflexivity.
  - reflexivity.
  - simpl. lia.
  - reflexivity.
Defined.

Lemma fetchWithRetry_all_429_witness :
  exists s2,
    fetchWithRetry "u" 3
      (Scenario.net_of (repeat (Responds Examples.reply_429) 3))
    = (Throw unknown_error, s2) /\
    waits (trace (world s2)) = [Int 2000; Int 2000; Int 2000] /\
    network (world s2) = [].
Proof.
  apply (fetchWithRetry_all_429
           "u" 3
           (Scenario.net_of (repeat (Responds Examples.reply_429) 3))
           (snd (acquire (Scenario.net_of
                            (repeat (Responds Examples.reply_429) 3))))
           Examples.reply_429 []).
  - reflexivity.
  - reflexivity.
  - reflexivity.
Defined.

Lemma backoff_bounds_witness :
  1000 <= backoff 2 <= 10000 /\
  backoff 2 <= backoff (2 + 1) /\
  (2 <= 3 -> backoff 2 = 1000 * 2 ^ 2) /\
  (4 <= 2 -> backoff 2 = 10000).
Proof. apply (backoff_bounds 2). lia. Defined.

End FetchExtras.

(* ================================================================== *)
(** * Further properties of the OMDb client *)
(* ================================================================== *)

Module ClientExtras.

Import OMDBClient.

Lemma get_hit_entry (k : LRUCache.t PlexAPIClient.Cached) t key v k' :
  LRUCache.get k t key = (Some v, k') ->
  exists item,
    LRUCache.Map_get key (LRUCache.cache k') = Some item /\
    LRUCache.value item = v.
Proof.
  unfold LRUCache.get.
  destruct (LRUCache.Map_get key (LRUCache.cache k)) as [item|];
    [|discriminate].
  destruct (LRUCache.expiry item <? t); [discriminate|].
  intros [= <- <-]. exists item. simpl.
  split; [apply CacheFacts.Map_get_set_same | reflexivity].
Qed.

Lemma apiCache_get_hit (k : LRUCache.t PlexAPIClient.Cached) key n v k' n' :
  Window.apiCache_get k key n = (Some v, k', n') ->
  exists item,
    LRUCache.Map_get key (LRUCache.cache k') = Some item /\
    LRUCache.value item = v.
Proof.
  unfold Window.apiCache_get.
  destruct (LRUCache.Map_get key (LRUCache.cache k)) as [item|] eqn:E.
  - unfold RateLimiter.read_clock.
    destruct (LRUCache.get k _ key) as [r k1] eqn:G.
    intros [= -> -> _]. exact (get_hit_entry _ _ _ _ _ G).
  - unfold LRUCache.get. rewrite E. discriminate.
Qed.

Lemma request_body_caches c url key data c1 :
  request_body c url key = (Ok data, c1) ->
  apiKey c1 = apiKey c /\
  exists item,
    LRUCache.Map_get key (LRUCache.cache (cache c1)) = Some item /\
    LRUCache.value item = PlexAPIClient.CachedOmdb data.
Proof.
  unfold request_body.
  destruct (RateLimiter.fetchWithRetry url CONFIG.MAX_RETRY_ATTEMPTS (net c))
    as [[response|e] n]; [|discriminate].
  destruct (json response) as [d|e]; [|discriminate].
  destruct (negb (Response d =? "True")%string); [discriminate|].
  cbn [CONFIG.FEATURES.ENABLE_CACHE].
  unfold clock, RateLimiter.read_clock, with_net, with_cache.
  cbn [net cache apiKey RateLimiter.limiter RateLimiter.world].
  intros [= <- <-]. cbn [apiKey cache]. split; [reflexivity|].
  eexists. split; [apply CacheFacts.Map_get_set_same | reflexivity].
Qed.

(** X15.  A reply that [request] has returned is in the cache under the
    key of the request; and as long as that entry has not expired when
    the clock is read next, the same request is answered from the cache
    with the same data: the network is not touched and nothing is
    added to the trace. *)
Theorem request_answered_from_cache c params key data c1 :
  truthy (apiKey c) = Some key ->
  request c params = (Ok data, c1) ->
  exists item,
    LRUCache.Map_get (Notions.cacheKey key params)
                     (LRUCache.cache (cache c1)) = Some item /\
    as_omdb (LRUCache.value item) = data /\
    (now (RateLimiter.world (net c1))
       + hd 0 (drift (RateLimiter.world (net c1)))
       <= LRUCache.expiry item ->
     exists c2,
       request c1 params = (Ok data, c2) /\
       network (RateLimiter.world (net c2))
         = network (RateLimiter.world (net c1)) /\
       trace (RateLimiter.world (net c2))
         = trace (RateLimiter.world (net c1))).
Proof.
  intros Hkey Hreq.
  assert (Hfirst : apiKey c1 = apiKey c /\
            exists item,
              LRUCache.Map_get (Notions.cacheKey key params)
                               (LRUCache.cache (cache c1)) = Some item /\
              as_omdb (LRUCache.value item) = data).
  { revert Hreq. unfold request. rewrite Hkey.
    cbn [CONFIG.FEATURES.ENABLE_CACHE].
    fold (Notions.cacheKey key params).
    destruct (Window.apiCache_get (cache c) (Notions.cacheKey key params)
                                  (net c))
      as [[[v|] k'] n'] eqn:Eget.
    - intros [= <- <-]. cbn [apiKey cache].
      split; [reflexivity|].
      destruct (apiCache_get_hit _ _ _ _ _ _ Eget) as (item & Hi & Hv).
      exists item. now rewrite Hv.
    - intros Hbody. apply request_body_caches in Hbody.
      cbn [apiKey] in Hbody.
      destruct Hbody as [Hk (item & Hi & Hv)]. split; [exact Hk|].
      exists item. now rewrite Hv. }
  destruct Hfirst as [Hk (item & Hitem & Hval)].
  exists item. split; [exact Hitem|]. split; [exact Hval|].
  intros Hfresh. unfold request. rewrite Hk, Hkey.
  cbn [CONFIG.FEATURES.ENABLE_CACHE].
  fold (Notions.cacheKey key params).
  unfold Window.apiCache_get. rewrite Hitem.
  unfold RateLimiter.read_clock, LRUCache.get. rewrite Hitem.
  destruct (Z.ltb_spec (LRUCache.expiry item)
              (now (RateLimiter.world (net c1))
               + hd 0 (drift (RateLimiter.world (net c1))))); [lia|].
  rewrite Hval. eexists. split; [reflexivity|]. split; reflexivity.
Qed.

(** ** The serializer of the query *)

Lemma hex_digit_unreserved n : unreserved (hex_digit n) = true.
Proof.
  do 16 (destruct n as [|n]; [reflexivity|]). destruct n; reflexivity.
Qed.

Lemma occurrences_app x s1 s2 :
  Notions.occurrences x (s1 ++ s2)
  = (Notions.occurrences x s1 + Notions.occurrences x s2)%nat.
Proof.
  induction s1 as [|y s1 IH]; simpl; [reflexivity|]. rewrite IH. lia.
Qed.

Lemma percent_byte_clean n y :
  unreserved y = false -> y <> "%"%char ->
  Notions.occurrences y (percent_byte n) = 0%nat.
Proof.
  intros Hy Hpct. unfold percent_byte.
  pose proof (hex_digit_unreserved (n / 16)) as H1.
  pose proof (hex_digit_unreserved (n mod 16)) as H2.
  set (h1 := hex_digit (n / 16)) in *.
  set (h2 := hex_digit (n mod 16)) in *.
  cbn [Notions.occurrences].
  destruct (Ascii.eqb_spec y "%"); [contradiction|].
  destruct (Ascii.eqb_spec y h1) as [E|_]; [congruence|].
  destruct (Ascii.eqb_spec y h2) as [E|_]; [congruence|].
  reflexivity.
Qed.

Lemma encode_char_clean x y :
  unreserved y = false -> y <> "+"%char -> y <> "%"%char ->
  Notions.occurrences y (encode_char x) = 0%nat.
Proof.
  intros Hy Hplus Hpct. unfold encode_char.
  destruct (unreserved x) eqn:Hx.
  - simpl. destruct (Ascii.eqb_spec y x) as [->|_]; [congruence|reflexivity].
  - destruct (Ascii.eqb x " ").
    + simpl. destruct (Ascii.eqb_spec y "+"); [contradiction|reflexivity].
    + unfold UTF8_bytes.
      destruct (nat_of_ascii x <? 128)%nat; cbn [map String.concat];
        rewrite ?occurrences_app, ?percent_byte_clean by assumption;
        reflexivity.
Qed.

Lemma encode_clean s y :
  unreserved y = false -> y <> "+"%char -> y <> "%"%char ->
  Notions.occurrences y (encode s) = 0%nat.
Proof.
  intros Hy Hplus Hpct. induction s as [|x s IH]; simpl; [reflexivity|].
  now rewrite occurrences_app, IH, encode_char_clean.
Qed.

(** X16.  In the query string that [request] builds, the separators
    cannot be forged by a value: whatever the names and values hold,
    [=] occurs once per parameter and [&] once between two parameters,
    and [#], [?], [/] and the space do not occur at all. *)
Theorem query_string_separators (params : list (string * string)) :
  let q := URLSearchParams_toString params in
  Notions.occurrences "=" q = List.length params /\
  Notions.occurrences "&" q = (List.length params - 1)%nat /\
  Notions.occurrences "#" q = 0%nat /\
  Notions.occurrences "?" q = 0%nat /\
  Notions.occurrences "/" q = 0%nat /\
  Notions.occurrences " " q = 0%nat.
Proof.
  assert (Hclean : forall y s,
             unreserved y = false -> y <> "+"%char -> y <> "%"%char ->
             Notions.occurrences y (encode s) = 0%nat)
    by (intros; now apply encode_clean).
  induction params as [|[k v] rest IH]; [repeat split|].
  destruct IH as (He & Ha & Hh & Hq & Hs & Hsp).
  destruct rest as [|p rest'].
  - cbn [URLSearchParams_toString List.length].
    rewrite !occurrences_app, !Hclean by (reflexivity || discriminate).
    repeat split.
  - cbn [URLSearchParams_toString] in *. destruct p as [k' v'].
    cbn [List.length] in *.
    rewrite !occurrences_app, !Hclean by (reflexivity || discriminate).
    rewrite He, Ha, Hh, Hq, Hs, Hsp. simpl. repeat split; lia.
Qed.

(** ** The year of a search *)

(** A literal, without the [i] flag, stands for itself. *)
Lemma lit_word s : forall w,
  RegExp.L false (RegExp.lit s) w -> w = list_ascii_of_string s.
Proof.
  induction s as [|x s IH]; intros w; cbn [RegExp.lit RegExp.L].
  - auto.
  - intros (w1 & w2 & -> & (a & -> & Ha) & Hw2).
    unfold RegExp.accepts in Ha. apply Ascii.eqb_eq in Ha. subst a.
    simpl. f_equal. now apply IH.
Qed.

Lemma YEAR_test_sound y :
  RegExp.test RegExp.YEAR y = true -> Notions.year_shape y.
Proof.
  unfold RegExp.test, RegExp.String_match.
  destruct (RegExp.search RegExp.YEAR (list_ascii_of_string y)) as [mt|] eqn:E;
    [intros _ | discriminate].
  apply RegExpFacts.search_sound in E.
  destruct E as (sk & s' & Hs & H & Hstart).
  rewrite (Hstart eq_refl) in Hs. simpl in Hs. subst s'.
  apply RegExpFacts.match_at_capture in H.
  destruct H as (Hg & w0 & w2 & s3 & Hs & H0 & H2 & Hend).
  simpl in H0. subst w0. rewrite (Hend eq_refl) in Hs.
  simpl in Hs. rewrite app_nil_r in Hs.
  simpl in H2. destruct H2 as (Hall & Hlo & Hhi).
  specialize (Hhi 2%nat eq_refl).
  destruct w2 as [|c [|d [|? ?]]]; simpl in Hlo, Hhi; try lia.
  inversion Hall as [|? ? Hc Hall']; subst.
  inversion Hall' as [|? ? Hd _]; subst.
  exists c, d. split; [exact Hc|]. split; [exact Hd|].
  assert (Hy : y = string_of_list_ascii (RegExp.capture1 mt ++ [c; d])).
  { rewrite <- Hs. symmetry. apply string_of_list_ascii_of_string. }
  change (RegExp.L false (RegExp.Alt (RegExp.lit "19") (RegExp.lit "20"))
                   (RegExp.capture1 mt)) in Hg.
  destruct Hg as [Hg|Hg]; apply lit_word in Hg; rewrite Hg in Hy.
  - left. exact Hy.
  - right. exact Hy.
Qed.

Lemma YEAR_test_complete y :
  Notions.year_shape y -> RegExp.test RegExp.YEAR y = true.
Proof.
  intros (c & d & Hc & Hd & [-> | ->]);
    unfold RegExp.test, RegExp.String_match, RegExp.search, RegExp.match_at;
    simpl; change (RegExp.accepts false RegExp.Digit) with RegExp.is_digit;
    unfold RegExp.run_length; rewrite Hc, Hd; reflexivity.
Qed.

(** X17.  [searchByTitle] sends the year only when it is [19] or [20]
    followed by two digits; any other year is dropped without an error,
    and the search runs as if no year had been given. *)
Theorem searchByTitle_year c title year :
  (RegExp.test RegExp.YEAR year = true <-> Notions.year_shape year) /\
  (~ Notions.year_shape year ->
   searchByTitle c title year = searchByTitle c title "").
Proof.
  split.
  - split; [apply YEAR_test_sound | apply YEAR_test_complete].
  - intros Hn. unfold searchByTitle.
    destruct (truthy (Some title)); [|reflexivity].
    destruct year as [|x year']; [reflexivity|].
    cbn [truthy].
    destruct (RegExp.test RegExp.YEAR (String x year')) eqn:E; [|reflexivity].
    destruct Hn. now apply YEAR_test_sound.
Qed.

Lemma get_keys_incl (k : LRUCache.t PlexAPIClient.Cached) t key :
  incl (LRUCache.keys (snd (LRUCache.get k t key))) (LRUCache.keys k).
Proof.
  unfold LRUCache.keys. rewrite CacheFacts.get_cache.
  destruct (LRUCache.Map_get key (LRUCache.cache k)) as [item|] eqn:E;
    [|apply incl_refl].
  assert (Hin : In key (map fst (LRUCache.cache k))).
  { destruct (in_dec string_dec key (map fst (LRUCache.cache k)))
      as [I|N]; [exact I|].
    apply CacheFacts.Map_get_None_iff in N. congruence. }
  destruct (LRUCache.expiry item <? t).
  - apply CacheFacts.Map_delete_keys_incl.
  - intros x Hx. apply CacheFacts.Map_set_keys in Hx.
    destruct Hx as [<-|Hx]; [exact Hin|].
    now apply (CacheFacts.Map_delete_keys_incl PlexAPIClient.Cached key)
      in Hx.
Qed.

Lemma request_body_throw_cache c url key e c1 :
  request_body c url key = (Throw e, c1) -> cache c1 = cache c.
Proof.
  unfold request_body.
  destruct (RateLimiter.fetchWithRetry url CONFIG.MAX_RETRY_ATTEMPTS (net c))
    as [[response|e0] n].
  - destruct (json response) as [d|e1].
    + destruct (negb (Response d =? "True")%string).
      * now intros [= _ <-].
      * cbn [CONFIG.FEATURES.ENABLE_CACHE].
        unfold clock, RateLimiter.read_clock. discriminate.
    + now intros [= _ <-].
  - now intros [= _ <-].
Qed.

(** X23.  A request that fails caches nothing: after a [request] that
    throws (no API key, a transport error, an unreadable body, a reply
    of the provider other than [Response: "True"]), every key of the
    cache was in it before. *)
Theorem failed_request_caches_nothing c params e c1 :
  request c params = (Throw e, c1) ->
  incl (LRUCache.keys (cache c1)) (LRUCache.keys (cache c)).
Proof.
  unfold request.
  destruct (truthy (apiKey c)) as [key|].
  - cbn [CONFIG.FEATURES.ENABLE_CACHE].
    set (cacheKey :=
           "omdb:" ++ URLSearchParams_toString (("apikey", key) :: params)).
    assert (Hincl : incl (LRUCache.keys
                            (snd (fst (Window.apiCache_get (cache c) cacheKey
                                                           (net c)))))
                         (LRUCache.keys (cache c))).
    { unfold Window.apiCache_get.
      destruct (LRUCache.Map_get cacheKey (LRUCache.cache (cache c)));
        unfold RateLimiter.read_clock;
        match goal with
        | |- context [LRUCache.get ?k ?t ?key] =>
            pose proof (get_keys_incl k t key);
            destruct (LRUCache.get k t key)
        end; assumption. }
    destruct (Window.apiCache_get (cache c) cacheKey (net c))
      as [[[v|] k'] n']; [discriminate|].
    intros Hbody. apply request_body_throw_cache in Hbody.
    cbn [cache] in Hbody. rewrite Hbody. exact Hincl.
  - intros [= _ <-]. apply incl_refl.
Qed.

Lemma failed_request_caches_nothing_witness :
  incl (LRUCache.keys
          (cache (snd (request (Scenario.client_of [Scenario.not_found_reply])
                               [("t", "Nonexistent")]))))
       (LRUCache.keys (cache (Scenario.client_of [Scenario.not_found_reply]))).
Proof.
  apply (failed_request_caches_nothing
           (Scenario.client_of [Scenario.not_found_reply])
           [("t", "Nonexistent")]
           (Js.Error "Movie not found!")).
  reflexivity.
Defined.

Lemma request_answered_from_cache_witness :
  let c1 := snd (request (Scenario.client_of [Responds Examples.reply_ok])
                         [("t", "Inception")]) in
  exists item,
    LRUCache.Map_get (Notions.cacheKey "abcd1234" [("t", "Inception")])
                     (LRUCache.cache (cache c1)) = Some item /\
    as_omdb (LRUCache.value item) = Examples.inception /\
    (now (RateLimiter.world (net c1))
       + hd 0 (drift (RateLimiter.world (net c1)))
       <= LRUCache.expiry item ->
     exists c2,
       request c1 [("t", "Inception")] = (Ok Examples.inception, c2) /\
       network (RateLimiter.world (net c2))
         = network (RateLimiter.world (net c1)) /\
       trace (RateLimiter.world (net c2))
         = trace (RateLimiter.world (net c1))).
Proof.
  apply (request_answered_from_cache
           (Scenario.client_of [Responds Examples.reply_ok])
           [("t", "Inception")] "abcd1234" Examples.inception).
  - reflexivity.
  - reflexivity.
Defined.

Lemma searchByTitle_year_witness :
  RegExp.test RegExp.YEAR "1999" = true /\
  searchByTitle (Scenario.client_of []) "Matrix" "99"
  = searchByTitle (Scenario.client_of []) "Matrix" "".
Proof.
  destruct (searchByTitle_year (Scenario.client_of []) "Matrix" "1999")
    as [Hiff _].
  destruct (searchByTitle_year (Scenario.client_of []) "Matrix" "99")
    as [Hiff' Hdrop].
  split.
  - apply Hiff. exists "9"%char, "9"%char. repeat split. now left.
  - apply Hdrop. intros Hs. apply Hiff' in Hs. discriminate Hs.
Defined.

End ClientExtras.

(* ================================================================== *)
(** * Further properties of the resolver and of the Plex client *)
(* ================================================================== *)

Module ResolverExtras.

Import RegExp RegExpFacts MetadataResolver.

Lemma truthy_nonempty s v : truthy s = Some v -> s = Some v /\ v <> "".
Proof.
  destruct s as [[|x s']|]; simpl; try discriminate.
  intros [= <-]. split; [reflexivity | discriminate].
Qed.

Lemma id_shape_nonempty ic lo hi id : id_shape ic lo hi id -> id <> "".
Proof.
  intros (a & b & ds & E & _) ->. discriminate.
Qed.

Lemma truthy_of_nonempty v : v <> "" -> truthy (Some v) = Some v.
Proof. destruct v; [contradiction | reflexivity]. Qed.

(** X18.  An identifier found in the page ends the resolution at once:
    it is returned, and neither the cache, the rate limiter nor the
    network is touched. *)
Theorem page_identifier_short_circuits page c movieInfo id :
  findIMDbIdInPage page = Some id ->
  resolveIMDbId page c movieInfo = (Ok (Some id), c).
Proof.
  intros Hpage. unfold resolveIMDbId. rewrite Hpage.
  rewrite truthy_of_nonempty; [reflexivity|].
  apply (id_shape_nonempty true 1 None).
  exact (ResolverFacts.first_match_shape _ _ _
           ResolverFacts.imdbLinkPatterns_yield Hpage).
Qed.

Lemma strategy3_nonempty c movieInfo id c' :
  strategy3 c movieInfo = (Ok (Some id), c') -> id <> "".
Proof.
  unfold strategy3.
  destruct (OMDBClient.searchByTitle c (title movieInfo)
                                     (or_empty (year movieInfo)))
    as [[data|e] c1]; [|discriminate].
  destruct (truthy (imdbID data)) as [v|] eqn:E; [|discriminate].
  intros [= <- <-]. now apply truthy_nonempty in E.
Qed.

(** X19.  [resolveIMDbId] never returns the empty string for an
    identifier: a result is [null] or a non-empty string. *)
Theorem resolved_identifier_nonempty page c movieInfo id c' :
  resolveIMDbId page c movieInfo = (Ok (Some id), c') -> id <> "".
Proof.
  unfold resolveIMDbId.
  destruct (truthy (findIMDbIdInPage page)) as [v|] eqn:Epage.
  - intros H. inversion H; subst. now apply truthy_nonempty in Epage.
  - destruct (plexClient page) as [plex|]; [|apply strategy3_nonempty].
    destruct (PlexAPIClient.isAvailable plex); [|apply strategy3_nonempty].
    unfold strategy2.
    destruct (PlexAPIClient.getIMDbDataFromPage
                plex (ratingKey page) (plexServer page)
                (OMDBClient.cache c) (OMDBClient.net c))
      as [[[plexData|e] k] n]; [|discriminate].
    destruct (truthy (match plexData with
                      | Some d => PlexAPIClient.imdbId d
                      | None => None
                      end)) as [v|] eqn:Eplex.
    + intros H. inversion H; subst. now apply truthy_nonempty in Eplex.
    + destruct (match plexData with
                | Some d => PlexAPIClient.searchTerms d
                | None => None
                end) as [terms|]; [|apply strategy3_nonempty].
      destruct (OMDBClient.searchByTitle _ _ _) as [[data|e] c1];
        [|discriminate].
      destruct (truthy (imdbID data)) as [v|] eqn:E.
      * intros H. inversion H; subst. now apply truthy_nonempty in E.
      * apply strategy3_nonempty.
Qed.

(** A literal matches itself, in either mode. *)
Lemma m_lit_prefix {A} ic s : forall rest (k : list ascii -> option A),
  m ic (lit s) (list_ascii_of_string s ++ rest)%list k = k rest.
Proof.
  induction s as [|x s IH]; intros rest k; cbn [lit m list_ascii_of_string app].
  - reflexivity.
  - assert (Hx : accepts ic (Char x) x = true)
      by (unfold accepts; destruct ic; apply Ascii.eqb_refl).
    rewrite Hx. apply IH.
Qed.

Lemma search_here r s mt : match_at r s = Some mt -> search r s = Some mt.
Proof. intros H. destruct s; simpl; now rewrite H. Qed.

(** [/imdb:\/\/(tt\d+)/i] on the text [imdb://tt] and digits. *)
Lemma plexGuidPattern_finds digits :
  digits <> "" ->
  Forall (fun x => is_digit x = true) (list_ascii_of_string digits) ->
  option_map group
    (String_match ("imdb://tt" ++ digits) plexGuidPattern)
  = Some ("tt" ++ digits).
Proof.
  intros Hne Hall.
  unfold String_match.
  set (ds := list_ascii_of_string digits) in *.
  assert (Hlen : (1 <= List.length ds)%nat).
  { subst ds. destruct digits; [contradiction | simpl; lia]. }
  change (list_ascii_of_string ("imdb://tt" ++ digits))
    with (list_ascii_of_string "imdb://"
          ++ (list_ascii_of_string "tt" ++ ds))%list.
  rewrite (search_here plexGuidPattern _
             (mkMatch (list_ascii_of_string "imdb://tt" ++ ds)
                      (list_ascii_of_string "tt" ++ ds))).
  - cbn [option_map]. unfold group. cbn [capture1]. subst ds. f_equal.
    transitivity (string_of_list_ascii (list_ascii_of_string ("tt" ++ digits)));
      [reflexivity | apply string_of_list_ascii_of_string].
  - unfold match_at.
    cbn [plexGuidPattern before group1 after ignoreCase anchoredEnd tt_digits].
    rewrite m_lit_prefix. unfold tt_digits. cbn [m]. rewrite m_lit_prefix.
    rewrite (run_length_all (accepts true Digit) ds Hall).
    cbn [capped].
    destruct (List.length ds) as [|n] eqn:En; [lia|].
    cbn [backtrack]. replace (S n <? 1)%nat with false
      by (symmetry; apply Nat.ltb_ge; lia).
    rewrite <- En, skipn_all. cbn [List.length].
    rewrite !Nat.sub_0_r, !firstn_all. reflexivity.
Qed.

(** X20.  An identifier that the first entry of the metadata's [Guid]
    list carries as [imdb://tt] and digits is extracted as it is. *)
Theorem extractIMDbId_reads_first_guid md digits rest :
  digits <> "" ->
  Forall (fun x => is_digit x = true) (list_ascii_of_string digits) ->
  PlexAPIClient.Guid md
    = Some (PlexAPIClient.GuidObject ("imdb://tt" ++ digits) :: rest) ->
  PlexAPIClient.extractIMDbId (Some md) = Ok (Some ("tt" ++ digits)).
Proof.
  intros Hne Hall Hguid. unfold PlexAPIClient.extractIMDbId. rewrite Hguid.
  pose proof (plexGuidPattern_finds digits Hne Hall) as Hm.
  cbn [PlexAPIClient.scan_guids append].
  unfold PlexAPIClient.imdbMatch.
  change (String "i" (String "m" (String "d" (String "b" (String ":"
            (String "/" (String "/" (String "t" (String "t" digits)))))))))
    with ("imdb://tt" ++ digits).
  destruct (String_match ("imdb://tt" ++ digits) plexGuidPattern) as [mt|];
    [|discriminate].
  simpl in Hm. injection Hm as Hm. now rewrite Hm.
Qed.

(** X21.  When the page holds no identifier, the Plex client is
    configured, the shared cache has nothing under the key of the
    page's item, and the Plex server answers with metadata that carries
    [imdb://tt] and digits in its first [Guid], the resolver returns
    that identifier without asking OMDb: the only call of [fetch] is
    the one to the Plex server, the rate limiter and the replies of
    OMDb are left as they were.  The lookup is seen in the cache that
    the OMDb client holds: one more miss, and the metadata stored under
    [plex_metadata_<key>].  While that entry has not expired, resolving
    the same page again returns the identifier from the cache, as a
    hit, without any call of [fetch]. *)
Theorem plex_identifier_needs_no_search
        page c movieInfo plex url key response md digits rest :
  findIMDbIdInPage page = None ->
  plexClient page = Some plex ->
  PlexAPIClient.isAvailable plex = true ->
  PlexAPIClient.plexUrl plex = Some url ->
  truthy (ratingKey page) = Some key ->
  plexServer page = PlexAPIClient.PlexResponds response ->
  PlexAPIClient.plex_ok response = true ->
  PlexAPIClient.first_metadata response = Ok (Some md) ->
  digits <> "" ->
  Forall (fun x => is_digit x = true) (list_ascii_of_string digits) ->
  PlexAPIClient.Guid md
    = Some (PlexAPIClient.GuidObject ("imdb://tt" ++ digits) :: rest) ->
  LRUCache.Map_get (PlexAPIClient.cacheKey key)
                   (LRUCache.cache (OMDBClient.cache c)) = None ->
  exists c1 item,
    resolveIMDbId page c movieInfo = (Ok (Some ("tt" ++ digits)), c1) /\
    RateLimiter.limiter (OMDBClient.net c1)
      = RateLimiter.limiter (OMDBClient.net c) /\
    network (RateLimiter.world (OMDBClient.net c1))
      = network (RateLimiter.world (OMDBClient.net c)) /\
    Notions.fetched (OMDBClient.net c1)
      = (Notions.fetched (OMDBClient.net c)
         ++ [PlexAPIClient.apiUrl url key])%list /\
    LRUCache.misses (OMDBClient.cache c1)
      = S (LRUCache.misses (OMDBClient.cache c)) /\
    LRUCache.Map_get (PlexAPIClient.cacheKey key)
                     (LRUCache.cache (OMDBClient.cache c1)) = Some item /\
    LRUCache.value item = PlexAPIClient.CachedPlex md /\
    (now (RateLimiter.world (OMDBClient.net c1))
       + hd 0 (drift (RateLimiter.world (OMDBClient.net c1)))
       <= LRUCache.expiry item ->
     exists c2,
       resolveIMDbId page c1 movieInfo = (Ok (Some ("tt" ++ digits)), c2) /\
       Notions.fetched (OMDBClient.net c2)
         = Notions.fetched (OMDBClient.net c1) /\
       LRUCache.hits (OMDBClient.cache c2)
         = S (LRUCache.hits (OMDBClient.cache c1))).
Proof.
  intros Hpage Hplex Havail Hurl Hkey Hserver Hok Hmd Hne Hall Hguid Hmiss.
  pose proof (extractIMDbId_reads_first_guid md digits rest Hne Hall Hguid)
    as Hid.
  assert (Hid' : truthy (Some ("tt" ++ digits)) = Some ("tt" ++ digits))
    by reflexivity.
  unfold resolveIMDbId. rewrite Hpage, Hplex, Havail. cbn [truthy].
  unfold strategy2, PlexAPIClient.getIMDbDataFromPage.
  rewrite Hkey.
  unfold PlexAPIClient.fetchMetadata at 1. rewrite Havail, Hurl.
  unfold Window.apiCache_get at 1. rewrite Hmiss.
  unfold LRUCache.get at 1. rewrite Hmiss.
  rewrite Hserver, Hok, Hmd. cbn [negb].
  unfold Window.apiCache_set, RateLimiter.read_clock, RateLimiter.emit.
  cbn [snd RateLimiter.world RateLimiter.limiter now drift network trace].
  rewrite Hid. cbn [Js.bind PlexAPIClient.imdbId]. rewrite Hid'.
  eexists. eexists.
  split; [reflexivity|].
  cbn [OMDBClient.net OMDBClient.cache RateLimiter.limiter
       RateLimiter.world network].
  split; [reflexivity|]. split; [reflexivity|].
  split.
  { unfold Notions.fetched.
    cbn [RateLimiter.world trace].
    rewrite FetchExtras.fetches_cons. reflexivity. }
  split; [reflexivity|].
  split.
  { unfold LRUCache.set, LRUCache.with_cache. cbn [LRUCache.cache].
    apply CacheFacts.Map_get_set_same. }
  split; [reflexivity|].
  cbn [LRUCache.expiry now drift].
  intros Hfresh.
  unfold PlexAPIClient.fetchMetadata. rewrite Havail, Hurl.
  unfold Window.apiCache_get.
  unfold LRUCache.set at 1, LRUCache.with_cache at 1. cbn [LRUCache.cache].
  rewrite CacheFacts.Map_get_set_same.
  unfold RateLimiter.read_clock.
  cbn [RateLimiter.world RateLimiter.limiter now drift network trace].
  unfold LRUCache.get.
  unfold LRUCache.set at 1, LRUCache.with_cache at 1. cbn [LRUCache.cache].
  rewrite CacheFacts.Map_get_set_same. cbn [LRUCache.expiry].
  match goal with
  | |- context [?a <? ?b] => destruct (Z.ltb_spec a b) as [Hlt|_]
  end; [lia|].
  cbn [LRUCache.value PlexAPIClient.as_metadata].
  rewrite Hid. cbn [Js.bind PlexAPIClient.imdbId]. rewrite Hid'.
  eexists. split; [reflexivity|].
  split; reflexivity.
Qed.

(** ** The rating key *)

Section RatingKey.

Variable decodeURIComponent : string -> Js.result string.

Lemma try_patterns_numeric text patterns validator k :
  Forall Notions.captures_digits patterns ->
  URLUtils.try_patterns text patterns validator = Some k ->
  Notions.numeric k.
Proof.
  induction 1 as [|r rs Hr _ IH]; cbn [URLUtils.try_patterns];
    [discriminate|].
  destruct (String_match text r) as [mt|] eqn:E; [|exact IH].
  destruct (truthy (Some (group mt))) as [v|] eqn:Ev; [|exact IH].
  assert (Hnum : Notions.numeric v).
  { apply truthy_nonempty in Ev. destruct Ev as [[= <-] Hne].
    split; [exact Hne|].
    unfold String_match in E. apply search_sound in E.
    destruct E as (_ & s' & _ & E & _).
    apply match_at_capture in E. destruct E as [E _].
    rewrite Hr in E. destruct E as [Hall _].
    unfold group. rewrite list_ascii_of_string_of_list_ascii.
    eapply Forall_impl; [|exact Hall].
    intros x Hx. destruct (ignoreCase r); exact Hx. }
  destruct validator as [v0|].
  - destruct (negb (test v0 v)); [exact IH|]. now intros [= <-].
  - now intros [= <-].
Qed.

(** X22.  The rating key that [extractRatingKey] finds in a URL is a
    non-empty string of decimal digits, whatever the URL holds and
    whatever [decodeURIComponent] makes of it. *)
Theorem extractRatingKey_numeric url k :
  URLUtils.extractRatingKey decodeURIComponent url = Some k ->
  Notions.numeric k.
Proof.
  assert (Hp : Forall Notions.captures_digits URLUtils.ratingKeyPatterns)
    by (repeat constructor).
  unfold URLUtils.extractRatingKey, URLUtils.extractPattern.
  destruct (URLUtils.try_patterns _ _ _) as [v|] eqn:E.
  - intros [= <-]. exact (try_patterns_numeric _ _ _ _ Hp E).
  - destruct (negb _); [|discriminate].
    apply try_patterns_numeric. exact Hp.
Qed.

End RatingKey.

Lemma page_identifier_short_circuits_witness :
  resolveIMDbId Scenario.matrix_page (Scenario.client_of [])
                Scenario.unknown_movie
  = (Ok (Some "tt0133093"), Scenario.client_of []).
Proof.
  apply (page_identifier_short_circuits
           Scenario.matrix_page (Scenario.client_of [])
           Scenario.unknown_movie "tt0133093").
  reflexivity.
Defined.

Lemma resolved_identifier_nonempty_witness : "tt0133093" <> "".
Proof.
  apply (resolved_identifier_nonempty
           Scenario.matrix_page (Scenario.client_of [])
           Scenario.unknown_movie "tt0133093" (Scenario.client_of [])).
  reflexivity.
Defined.

Lemma extractIMDbId_reads_first_guid_witness :
  PlexAPIClient.extractIMDbId (Some Examples.matrix_metadata)
  = Ok (Some "tt0133093").
Proof.
  apply (extractIMDbId_reads_first_guid
           Examples.matrix_metadata "0133093"
           [PlexAPIClient.GuidObject "tmdb://603"]).
  - discriminate.
  - repeat (apply Forall_cons; [reflexivity|]). apply Forall_nil.
  - reflexivity.
Defined.

Lemma plex_identifier_needs_no_search_witness :
  exists c1,
    resolveIMDbId Examples.plex_page (Scenario.client_of [])
                  Scenario.unknown_movie
    = (Ok (Some "tt0133093"), c1) /\
    LRUCache.keys (OMDBClient.cache c1) = ["plex_metadata_12345"] /\
    LRUCache.misses (OMDBClient.cache c1) = 1%nat /\
    Notions.fetched (OMDBClient.net c1)
    = ["https://plex.local:32400/library/metadata/12345"].
Proof.
  destruct (plex_identifier_needs_no_search
              Examples.plex_page (Scenario.client_of [])
              Scenario.unknown_movie
              (PlexAPIClient.mkClient (Some "token")
                                      (Some "https://plex.local:32400"))
              "https://plex.local:32400" "12345"
              (PlexAPIClient.mkPlexResponse 200 "OK"
                 (Ok (Some Examples.matrix_metadata)))
              Examples.matrix_metadata "0133093"
              [PlexAPIClient.GuidObject "tmdb://603"])
    as (c1 & item & Hres & _ & _ & Hfetch & Hmisses & _).
  - reflexivity.
  - reflexivity.
  - reflexivity.
  - reflexivity.
  - reflexivity.
  - reflexivity.
  - reflexivity.
  - reflexivity.
  - discriminate.
  - repeat (apply Forall_cons; [reflexivity|]). apply Forall_nil.
  - reflexivity.
  - reflexivity.
  - exists c1. split; [exact Hres|].
    assert (E : c1 = snd (resolveIMDbId Examples.plex_page
                            (Scenario.client_of []) Scenario.unknown_movie))
      by (now rewrite Hres).
    split; [rewrite E; reflexivity|].
    split; [exact Hmisses | exact Hfetch].
Defined.

Lemma extractRatingKey_numeric_witness : Notions.numeric "12345".
Proof.
  apply (extractRatingKey_numeric
           Examples.decode_plain
           "https://app.plex.tv/desktop/#!/server/abc/details?key=/library/metadata/12345").
  reflexivity.
Defined.

End ResolverExtras.
